(** * MATS dashboard: the workflow controller of [src/App.tsx]

    The component [App] owns five pieces of React state ([file],
    [dialogOpen], [selectedOptions], [step], [progress]), its event
    handlers and one effect that drives a progress bar with
    [setInterval] and a one-shot [setTimeout].  This development embeds
    that controller as a pure transition system and proves the
    properties of the workflow specification against it.

    Conventions of the embedding.
    - One browser event (a handler call, an interval tick, a timeout
      callback) is one atomic transition: React batches the state
      setters of a callback, re-renders and runs the effects of the
      commit before the next event is served.
    - [useEffect (..., [step])] is folded into [setStep]: when a commit
      changes [step], the cleanup of the previous run is executed and
      then the body of the effect for the new value.
    - JavaScript numbers are binary64 values, embedded in [Q]: every
      addition and multiplication of the source is followed by
      [round64], the rounding to the nearest binary64 number (ties to
      even, subnormals included; no number of the controller comes
      near the overflow threshold).  [Math.random ()] is an argument
      [random] with [0 <= random < 1].
    - The two browser timers are part of the state: [timer] tells
      whether the interval created by the effect is live, and
      [pendingSummary] counts the [setTimeout] callbacks that were
      scheduled and have not run yet. *)

From Stdlib Require Import QArith Qminmax Qround Qpower Lqa Lia.
From stdpp Require Import base decidable option list strings.

Local Open Scope string_scope.

(** ** Static data *)

Inductive WorkflowStep : Set := idle | processing | summary.

#[global] Instance WorkflowStep_eq_dec : EqDecision WorkflowStep.
Proof. solve_decision. Defined.

Record AnalysisOption := mkAnalysisOption {
  id : string;
  name : string;
  description : string;
  highlight : option string
}.

Definition analysisOptions : list AnalysisOption :=
  [ mkAnalysisOption "mobsf" "MobSF"
      "Comprehensive static + dynamic security analysis designed for APKs."
      (Some "Required");
    mkAnalysisOption "mitmproxy" "MITMProxy"
      "Inspect network traffic to discover unsafe communication patterns."
      None;
    mkAnalysisOption "androguard" "AndroGuard"
      "Deep dive into bytecode, certificates, and manifest hygiene."
      None;
    mkAnalysisOption "frida" "Frida"
      "Runtime instrumentation & hook-based inspection for dynamic behavior."
      None;
    mkAnalysisOption "drozer" "Drozer"
      "Advanced exploitation probes for research-grade assessments."
      None ].

Record Vulnerability := mkVulnerability {
  category : string;
  vuln_name : string;
  severity : string;
  scanner : string
}.

Record Remediation := mkRemediation {
  title : string;
  action : string
}.

Record Metrics := mkMetrics {
  duration : string;
  severityScore : Q;
  coverage : string;
  riskLevel : string
}.

Record Summary := mkSummary {
  generatedAt : string;
  keyFindings : list string;
  vulnerabilities : list Vulnerability;
  remediation : list Remediation;
  metrics : Metrics
}.

Definition summaryTemplate : Summary :=
  {| generatedAt := "October 21, 2025 · 10:45 AM";
     keyFindings :=
       [ "Improper thread synchronization identified in the payment service.";
         "Sensitive analytics payload exposed via unsecured WebSocket.";
         "Excessive permissions in manifest allow privilege escalation." ];
     vulnerabilities :=
       [ mkVulnerability "Race Condition"
           "Inconsistent balance checks in payment module" "critical" "MobSF";
         mkVulnerability "Improper Thread Synchronization"
           "Analytics service spawns unbounded worker threads" "high" "Frida";
         mkVulnerability "Runtime Exploit Surface"
           "Broadcast receiver exported without auth" "medium" "Drozer" ];
     remediation :=
       [ mkRemediation "Race Condition Mitigation"
           "Introduce optimistic locking combined with server-side verification before commits.";
         mkRemediation "Secure Communications"
           "Route analytics payloads through mTLS tunnel and rotate certificates quarterly.";
         mkRemediation "Hardening Exported Components"
           "Enforce signature-level permissions for exposed receivers and services." ];
     metrics :=
       {| duration := "08m 12s";
          severityScore := 74 # 10;
          coverage := "92%";
          riskLevel := "High" |} |}.

(** ** Component state *)

(** The DOM [File] object; the controller only ever reads its name. *)
Record File := mkFile {
  file_name : string;
  file_size : N
}.

Record State := mkState {
  file : option File;
  dialogOpen : bool;
  selectedOptions : list string;
  step : WorkflowStep;
  progress : Q;
  timer : bool;
  pendingSummary : nat
}.

(** The [useState] initialisers; no timer exists before the first run. *)
Definition initialState : State :=
  {| file := None;
     dialogOpen := false;
     selectedOptions := ["mobsf"];
     step := idle;
     progress := 0;
     timer := false;
     pendingSummary := 0 |}.

Definition setFile (f : File) (st : State) : State :=
  mkState (Some f) (dialogOpen st) (selectedOptions st) (step st)
          (progress st) (timer st) (pendingSummary st).

Definition setDialogOpen (b : bool) (st : State) : State :=
  mkState (file st) b (selectedOptions st) (step st)
          (progress st) (timer st) (pendingSummary st).

Definition setSelectedOptions (f : list string -> list string) (st : State) : State :=
  mkState (file st) (dialogOpen st) (f (selectedOptions st)) (step st)
          (progress st) (timer st) (pendingSummary st).

Definition setProgress (p : Q) (st : State) : State :=
  mkState (file st) (dialogOpen st) (selectedOptions st) (step st)
          p (timer st) (pendingSummary st).

Definition writeStep (s : WorkflowStep) (st : State) : State :=
  mkState (file st) (dialogOpen st) (selectedOptions st) s
          (progress st) (timer st) (pendingSummary st).

(** [setInterval] / [clearInterval] on the effect's [timer]. *)
Definition setInterval (st : State) : State :=
  mkState (file st) (dialogOpen st) (selectedOptions st) (step st)
          (progress st) true (pendingSummary st).

Definition clearInterval (st : State) : State :=
  mkState (file st) (dialogOpen st) (selectedOptions st) (step st)
          (progress st) false (pendingSummary st).

(** [setTimeout (() => setStep ('summary'), 650)]: the handle is dropped,
    the callback stays scheduled until it runs. *)
Definition setTimeout (st : State) : State :=
  mkState (file st) (dialogOpen st) (selectedOptions st) (step st)
          (progress st) (timer st) (S (pendingSummary st)).

(** ** The effect on [step] *)

(** The cleanup returned by the previous run of the effect.  A run with
    [step <> 'processing'] returns early and leaves no cleanup. *)
Definition effectCleanup (st : State) : State :=
  if decide (step st = processing) then clearInterval st else st.

(** The body of the effect, run after a commit that changed [step]. *)
Definition effectBody (st : State) : State :=
  if decide (step st = processing)
  then setInterval (setProgress 0 st)
  else st.

(** [setStep s] followed by the commit: nothing happens when the value
    is unchanged (the dependency array is [[step]]). *)
Definition setStep (s : WorkflowStep) (st : State) : State :=
  if decide (step st = s) then st
  else effectBody (writeStep s (effectCleanup st)).

(** ** Derived values *)

(** [Boolean (file && selectedOptions.length)] *)
Definition analysisReady (st : State) : bool :=
  match file st with
  | Some _ => negb (length (selectedOptions st) =? 0)%nat
  | None => false
  end.

(** [useMemo (() => summaryTemplate, [])] *)
Definition summaryData (st : State) : Summary := summaryTemplate.

(** The report section renders [summaryData] only when
    [step === 'summary']; otherwise a placeholder card is shown. *)
Definition renderedSummary (st : State) : option Summary :=
  if decide (step st = summary) then Some (summaryData st) else None.

(** ** Event handlers *)

(** [event.target.files?.[0]] *)
Definition firstFile (files : option (list File)) : option File :=
  files ≫= head.

Definition handleFileChange (files : option (list File)) (st : State) : State :=
  match firstFile files with
  | Some nextFile => setFile nextFile st
  | None => st
  end.

(** The updater that [toggleOption] passes to [setSelectedOptions]. *)
Definition toggled (optionId : string) (prev : list string) : list string :=
  if decide (optionId ∈ prev)
  then filter (fun id => id ≠ optionId) prev
  else (prev ++ [optionId])%list.

Definition toggleOption (optionId : string) (st : State) : State :=
  if decide (optionId = "mobsf") then st
  else setSelectedOptions (toggled optionId) st.

Definition startAnalysis (st : State) : State :=
  if negb (analysisReady st) then st
  else setStep processing (setDialogOpen false st).

Definition resetWorkflow (st : State) : State :=
  setStep idle (setProgress 0 st).

(** ** Timer callbacks *)

(** *** Binary64 arithmetic *)

(** Round to the nearest integer, ties to the even one. *)
Definition roundHalfEven (y : Q) : Z :=
  let f := Qfloor y in
  match (y - inject_Z f ?= 1 # 2)%Q with
  | Lt => f
  | Gt => (f + 1)%Z
  | Eq => if Z.even f then f else (f + 1)%Z
  end.

(** The binary exponent of a positive number: [2^e <= x < 2^(e+1)]. *)
Definition exponentOf (x : Q) : Z :=
  let e := (Z.log2 (Qnum x) - Z.log2 (Zpos (Qden x)))%Z in
  if Qle_bool (2 ^ e) x then e else (e - 1)%Z.

(** The spacing of the binary64 numbers around a positive [x]: 52
    fraction bits below the exponent, which is at least -1022. *)
Definition ulp (x : Q) : Q := (2 ^ (Z.max (exponentOf x) (-1022) - 52))%Q.

Definition roundPositive (x : Q) : Q :=
  Qred (inject_Z (roundHalfEven (x / ulp x)) * ulp x).

(** The binary64 number nearest to [x]. *)
Definition round64 (x : Q) : Q :=
  match (x ?= 0)%Q with
  | Eq => 0%Q
  | Gt => roundPositive x
  | Lt => (- roundPositive (- x))%Q
  end.

(** [p] is a binary64 number. *)
Definition isDouble (p : Q) : Prop := (round64 p == p)%Q.

(** [Math.min (100, prev + Math.random () * 18)] *)
Definition nextProgress (prev random : Q) : Q :=
  Qmin 100 (round64 (prev + round64 (random * 18))).

(** The updater passed to [setProgress] by the interval callback. *)
Definition tick (random : Q) (st : State) : State :=
  let prev := progress st in
  let next := nextProgress prev random in
  if Qle_bool 100 next
  then setProgress next (setTimeout (clearInterval st))
  else setProgress next st.

(** The callback of the delayed transition. *)
Definition timeoutCallback (st : State) : State := setStep summary st.

(** ** The transition system *)

Inductive Event : Type :=
| FileChange (files : option (list File))
| OpenChange (open : bool)
| ToggleOption (optionId : string)
| StartAnalysis
| ResetWorkflow
| IntervalTick (random : Q)
| TimeoutFire.

(** An interval tick can only be served while the interval is live, a
    timeout only while one is scheduled; the handlers are total. *)
Definition dispatch (ev : Event) (st : State) : option State :=
  match ev with
  | FileChange files => Some (handleFileChange files st)
  | OpenChange b => Some (setDialogOpen b st)
  | ToggleOption optionId => Some (toggleOption optionId st)
  | StartAnalysis => Some (startAnalysis st)
  | ResetWorkflow => Some (resetWorkflow st)
  | IntervalTick random =>
      if timer st then Some (tick random st) else None
  | TimeoutFire =>
      match pendingSummary st with
      | O => None
      | S n =>
          Some (timeoutCallback
                  (mkState (file st) (dialogOpen st) (selectedOptions st)
                           (step st) (progress st) (timer st) n))
      end
  end.

Fixpoint run (evs : list Event) (st : State) : option State :=
  match evs with
  | [] => Some st
  | ev :: evs' =>
      match dispatch ev st with
      | Some st' => run evs' st'
      | None => None
      end
  end.

(** [Math.random ()] returns a number in the half-open unit interval. *)
Definition randomOk (random : Q) : Prop := (0 <= random)%Q ∧ (random < 1)%Q.

Definition eventOk (ev : Event) : Prop :=
  match ev with
  | IntervalTick random => randomOk random
  | _ => True
  end.

(** The progress values shown after each of a run of interval ticks. *)
Fixpoint progressTrace (randoms : list Q) (st : State) : list Q :=
  match randoms with
  | [] => []
  | random :: rest =>
      match dispatch (IntervalTick random) st with
      | Some st' => progress st' :: progressTrace rest st'
      | None => []
      end
  end.

Fixpoint nonDecreasing (ps : list Q) : Prop :=
  match ps with
  | p :: (q :: _) as tl => (p <= q)%Q ∧ nonDecreasing tl
  | _ => True
  end.

(** ** Predicates and sample data used by the statements *)

Definition toggleAll (ids : list string) (st : State) : State :=
  foldl (fun acc optionId => toggleOption optionId acc) st ids.

Definition occurrences (optionId : string) (l : list string) : nat :=
  length (filter (fun id => id = optionId) l).

Definition requiredSelected (st : State) : Prop := "mobsf" ∈ selectedOptions st.

Definition inRange (p : Q) : Prop := (0 <= p)%Q ∧ (p <= 100)%Q.

(** The interval is live only in phase [processing], and [progress] is a
    percentage. *)
Definition timerInv (st : State) : Prop :=
  inRange (progress st) ∧ (timer st = true → step st = processing).

(** The two roundings of one tick change the sum by at most 2^-46
    (2^-49 for the product below 32, 2^-47 for the sum below 128). *)
Definition tickSlack : Q := 1 # 70368744177664.

Definition apk : File := mkFile "app.apk" 1024.

Definition sixTicks : list Event :=
  [IntervalTick (17 # 18); IntervalTick (17 # 18); IntervalTick (17 # 18);
   IntervalTick (17 # 18); IntervalTick (17 # 18); IntervalTick (17 # 18)].

(** A file is chosen, the analysis is started and runs to 100 percent. *)
Definition completedRun : list Event :=
  [FileChange (Some [apk]); StartAnalysis] ++ sixTicks.

(** ** What the render shows *)

(** [disabled={!file}] on the Analyze button that opens the dialog. *)
Definition analyzeDisabled (st : State) : bool :=
  match file st with Some _ => false | None => true end.

(** [disabled={!analysisReady}] on the Run Analysis button. *)
Definition runDisabled (st : State) : bool := negb (analysisReady st).

(** The props of one scanner checkbox of the dialog:
    [checked={selectedOptions.includes (option.id)}] and
    [disabled={option.id === 'mobsf'}]; a click calls
    [toggleOption (option.id)]. *)
Record CheckboxProps := mkCheckboxProps {
  optionOf : string;
  checked : bool;
  disabled : bool
}.

Definition renderCheckbox (st : State) (option : AnalysisOption) : CheckboxProps :=
  {| optionOf := id option;
     checked := bool_decide (id option ∈ selectedOptions st);
     disabled := bool_decide (id option = "mobsf") |}.

(** [analysisOptions.map ((option) => ...)] *)
Definition renderCheckboxes (st : State) : list CheckboxProps :=
  renderCheckbox st <$> analysisOptions.

Definition catalogIds : list string := id <$> analysisOptions.

(** Events as the rendered page can produce them: a toggle comes from
    one of the checkboxes, hence carries a catalog id. *)
Definition pageEvent (ev : Event) : Prop :=
  match ev with
  | ToggleOption optionId => optionId ∈ catalogIds
  | _ => True
  end.

Definition withinCatalog (st : State) : Prop :=
  ∀ optionId, optionId ∈ selectedOptions st → optionId ∈ catalogIds.

(** [s.startsWith (pat)], returning the rest of [s]. *)
Fixpoint stripPrefix (pat s : string) : option string :=
  match pat with
  | EmptyString => Some s
  | String p pat' =>
      match s with
      | EmptyString => None
      | String c s' => if Ascii.eqb p c then stripPrefix pat' s' else None
      end
  end.

(** [s.includes (pat)] *)
Fixpoint includes (pat s : string) : bool :=
  match stripPrefix pat s with
  | Some _ => true
  | None =>
      match s with
      | EmptyString => false
      | String _ s' => includes pat s'
      end
  end.

(** [s.replace (pat, rep)] for a string pattern and a replacement
    without [$] patterns: only the first occurrence is replaced.  The
    pattern used by the page is ASCII, so searching the UTF-8 bytes
    finds the same occurrence as searching UTF-16 code units. *)
Fixpoint replace (pat rep s : string) : string :=
  match stripPrefix pat s with
  | Some rest => rep ++ rest
  | None =>
      match s with
      | EmptyString => EmptyString
      | String c s' => String c (replace pat rep s')
      end
  end.

(** The heading of the report section:
    [file ? `${file.name.replace ('.apk', '')}.apk` : 'Your APK'] *)
Definition reportTitle (st : State) : string :=
  match file st with
  | Some f => replace ".apk" "" (file_name f) ++ ".apk"
  | None => "Your APK"
  end.

(** [Math.round (progress)], the percentage written in the overlay:
    the nearest integer, halves rounded up. *)
Definition displayedPercent (st : State) : Z := Qfloor (progress st + (1 # 2)).

(** The processing overlay, with its Cancel button, is rendered only
    when [step === 'processing']. *)
Definition overlayShown (st : State) : bool :=
  bool_decide (step st = processing).

(** ** Predicates on runs *)

Definition ticks (randoms : list Q) : list Event := IntervalTick <$> randoms.

Definition total (randoms : list Q) : Q := foldr Qplus 0%Q randoms.

Definition isReset (ev : Event) : Prop :=
  match ev with ResetWorkflow => True | _ => False end.

(** The events that need no user: the two timer callbacks. *)
Definition isTimerEvent (ev : Event) : Prop :=
  match ev with IntervalTick _ | TimeoutFire => True | _ => False end.

(** What an event does to the selected file [acc]. *)
Definition chooseFile (acc : option File) (ev : Event) : option File :=
  match ev with
  | FileChange files =>
      match firstFile files with Some f => Some f | None => acc end
  | _ => acc
  end.

(** The file carried by the last change event of [evs] that has one. *)
Definition lastChosen (evs : list Event) : option File :=
  foldl chooseFile None evs.

(** Phase, interval and progress fit together. *)
Definition phaseInv (st : State) : Prop :=
  (timer st = true → step st = processing ∧ (progress st < 100)%Q) ∧
  (step st = processing → timer st = false →
   progress st = 100%Q ∧ (1 ≤ pendingSummary st)%nat) ∧
  (step st = idle → progress st = 0%Q).

(** What holds in addition as long as no reset happens. *)
Definition resetFreeInv (st : State) : Prop :=
  (pendingSummary st ≤ 1)%nat ∧
  (pendingSummary st = 1%nat →
   step st = processing ∧ progress st = 100%Q ∧ timer st = false) ∧
  (step st = summary → progress st = 100%Q) ∧
  (timer st = true → step st = processing).

Example start_scenario :
  run [FileChange (Some [apk]); StartAnalysis] initialState =
  Some (mkState (Some apk) false ["mobsf"] processing 0 true 0).
Proof. reflexivity. Qed.

(** ** Binary64 rounding *)

Section Rounding.
Local Open Scope Q_scope.

Lemma two_pos (k : Z) : 0 < 2 ^ k.
Proof. apply Qpower_0_lt. reflexivity. Qed.

Lemma two_le (a b : Z) : (a <= b)%Z -> 2 ^ a <= 2 ^ b.
Proof. intros H. apply Qpower_le_compat_l; [exact H | discriminate]. Qed.

Lemma two_lt_inv (a b : Z) : 2 ^ a < 2 ^ b -> (a < b)%Z.
Proof. intros H. eapply Qpower_lt_compat_l_inv; [exact H | reflexivity]. Qed.

Lemma two_split (a b : Z) : 2 ^ (a + b) == 2 ^ a * 2 ^ b.
Proof. apply Qpower_plus. discriminate. Qed.

Lemma two_inject (n : Z) : (0 <= n)%Z -> inject_Z (2 ^ n) == 2 ^ n.
Proof. intros H. rewrite Zpower_Qpower by exact H. reflexivity. Qed.

Lemma exponentOf_spec (x : Q) :
  0 < x -> 2 ^ exponentOf x <= x /\ x < 2 ^ (exponentOf x + 1).
Proof.
  intros Hx. unfold exponentOf.
  destruct x as [n d]. simpl Qnum. simpl Qden.
  assert (Hn : (0 < n)%Z) by (unfold Qlt in Hx; simpl in Hx; lia).
  set (a := Z.log2 n). set (b := Z.log2 (Z.pos d)).
  destruct (Z.log2_spec n Hn) as [Ha1 Ha2]. fold a in Ha1, Ha2.
  destruct (Z.log2_spec (Z.pos d) (Pos2Z.is_pos d)) as [Hb1 Hb2].
  fold b in Hb1, Hb2.
  assert (Ha0 : (0 <= a)%Z) by apply Z.log2_nonneg.
  assert (Hb0 : (0 <= b)%Z) by apply Z.log2_nonneg.
  assert (HxD : (n # d) * inject_Z (Z.pos d) == inject_Z n).
  { unfold Qeq, Qmult, inject_Z. simpl. lia. }
  pose proof (two_pos a) as HA. pose proof (two_pos b) as HB.
  assert (HA1 : 2 ^ a <= inject_Z n)
    by (rewrite <- two_inject by lia; rewrite <- Zle_Qle; exact Ha1).
  assert (HA2 : inject_Z n < 2 * 2 ^ a).
  { assert (H2 : 2 ^ (a + 1) == 2 ^ a * 2) by (rewrite two_split; reflexivity).
    assert (H3 : inject_Z n < 2 ^ (a + 1)).
    { rewrite <- two_inject by lia. rewrite <- Zlt_Qlt.
      replace (a + 1)%Z with (Z.succ a) by lia. exact Ha2. }
    lra. }
  assert (HB1 : 2 ^ b <= inject_Z (Z.pos d))
    by (rewrite <- two_inject by lia; rewrite <- Zle_Qle; exact Hb1).
  assert (HB2 : inject_Z (Z.pos d) < 2 * 2 ^ b).
  { assert (H2 : 2 ^ (b + 1) == 2 ^ b * 2) by (rewrite two_split; reflexivity).
    assert (H3 : inject_Z (Z.pos d) < 2 ^ (b + 1)).
    { rewrite <- two_inject by lia. rewrite <- Zlt_Qlt.
      replace (b + 1)%Z with (Z.succ b) by lia. exact Hb2. }
    lra. }
  assert (HE : 2 ^ (a - b) * 2 ^ b == 2 ^ a).
  { rewrite <- two_split. replace (a - b + b)%Z with a by lia. reflexivity. }
  set (X := n # d) in *. set (N := inject_Z n) in *.
  set (D := inject_Z (Z.pos d)) in *.
  set (A := 2 ^ a) in *. set (B := 2 ^ b) in *.
  destruct (Qle_bool (2 ^ (a - b)) X) eqn:Hle.
  - apply Qle_bool_iff in Hle. split; [exact Hle|].
    assert (H1 : 2 ^ (a - b + 1) == 2 ^ (a - b) * 2)
      by (rewrite two_split; reflexivity).
    rewrite H1. set (E := 2 ^ (a - b)) in *.
    (* X * D = N < 2A = 2 E B <= 2 E D *)
    apply Qnot_le_lt. intros Hc.
    assert (E * 2 * D <= X * D) by (apply Qmult_le_compat_r; [exact Hc | lra]).
    assert (E * B <= E * D).
    { apply Qmult_le_l; [apply two_pos | exact HB1]. }
    lra.
  - assert (Hlt : X < 2 ^ (a - b)).
    { apply Qnot_le_lt. intros Hc. apply Qle_bool_iff in Hc. congruence. }
    replace (a - b - 1 + 1)%Z with (a - b)%Z by lia.
    split; [|exact Hlt].
    assert (H1 : 2 ^ (a - b) == 2 ^ (a - b - 1) * 2).
    { rewrite <- (two_split (a - b - 1) 1).
      replace (a - b - 1 + 1)%Z with (a - b)%Z by lia. reflexivity. }
    set (E := 2 ^ (a - b)) in *. set (F := 2 ^ (a - b - 1)) in *.
    pose proof (two_pos (a - b - 1)) as HF. fold F in HF.
    (* F * D < F * 2B = E B = A <= N = X D *)
    apply Qnot_lt_le. intros Hc.
    assert (X * D < F * D) by (apply Qmult_lt_compat_r; [lra | exact Hc]).
    assert (F * D < F * (2 * B)) by (apply Qmult_lt_l; [exact HF | exact HB2]).
    assert (F * (2 * B) == A) by (rewrite <- HE, H1; ring).
    lra.
Qed.

Lemma exponentOf_unique (x : Q) (e : Z) :
  2 ^ e <= x -> x < 2 ^ (e + 1) -> exponentOf x = e.
Proof.
  intros Hlo Hhi.
  assert (Hx : 0 < x) by (pose proof (two_pos e); lra).
  destruct (exponentOf_spec x Hx) as [Hlo' Hhi'].
  assert (e < exponentOf x + 1)%Z by (apply two_lt_inv; lra).
  assert (exponentOf x < e + 1)%Z by (apply two_lt_inv; lra).
  lia.
Qed.

Lemma exponentOf_mono (x y : Q) :
  0 < x -> x <= y -> (exponentOf x <= exponentOf y)%Z.
Proof.
  intros Hx Hxy.
  destruct (exponentOf_spec x Hx) as [Hlo _].
  destruct (exponentOf_spec y) as [_ Hhi]; [lra|].
  assert (exponentOf x < exponentOf y + 1)%Z by (apply two_lt_inv; lra).
  lia.
Qed.

Lemma roundHalfEven_floor (y : Q) :
  (Qfloor y <= roundHalfEven y <= Qfloor y + 1)%Z.
Proof.
  unfold roundHalfEven.
  destruct (y - inject_Z (Qfloor y) ?= 1 # 2); [destruct (Z.even _)| |]; lia.
Qed.

Lemma roundHalfEven_Z (y : Q) (n : Z) : y == inject_Z n -> roundHalfEven y = n.
Proof.
  intros Hy. unfold roundHalfEven.
  assert (Hf : Qfloor y = n) by (rewrite Hy; apply Qfloor_Z).
  rewrite Hf.
  assert (Hlt : y - inject_Z n < 1 # 2) by (rewrite Hy; lra).
  destruct (Qcompare_spec (y - inject_Z n) (1 # 2)) as [H|H|H];
    [lra | reflexivity | lra].
Qed.

Lemma roundHalfEven_mono (y z : Q) :
  y <= z -> (roundHalfEven y <= roundHalfEven z)%Z.
Proof.
  intros Hyz. pose proof (Qfloor_resp_le y z Hyz) as Hf.
  pose proof (roundHalfEven_floor y) as Hy.
  pose proof (roundHalfEven_floor z) as Hz.
  destruct (Z.eq_dec (Qfloor y) (Qfloor z)) as [Heq|Hne]; [|lia].
  unfold roundHalfEven. rewrite <- Heq.
  destruct (Qcompare_spec (y - inject_Z (Qfloor y)) (1 # 2)) as [H1|H1|H1];
    destruct (Qcompare_spec (z - inject_Z (Qfloor y)) (1 # 2)) as [H2|H2|H2];
    try (destruct (Z.even (Qfloor y))); try lia; lra.
Qed.

Lemma roundHalfEven_near (y : Q) :
  y - (1 # 2) <= inject_Z (roundHalfEven y) /\
  inject_Z (roundHalfEven y) <= y + (1 # 2).
Proof.
  unfold roundHalfEven.
  pose proof (Qfloor_le y) as Hlo. pose proof (Qlt_floor y) as Hhi.
  rewrite inject_Z_plus in Hhi. change (inject_Z 1) with 1 in Hhi.
  destruct (Qcompare_spec (y - inject_Z (Qfloor y)) (1 # 2)) as [H1|H1|H1];
    try (destruct (Z.even (Qfloor y)));
    rewrite ?inject_Z_plus; change (inject_Z 1) with 1; lra.
Qed.

Lemma ulp_pos (x : Q) : 0 < ulp x.
Proof. apply two_pos. Qed.

Lemma roundPositive_eq (x : Q) :
  roundPositive x == inject_Z (roundHalfEven (x / ulp x)) * ulp x.
Proof. apply Qred_correct. Qed.

(** A multiple of the spacing around [x] bounds the rounded value as it
    bounds [x]. *)
Lemma roundPositive_le_multiple (x : Q) (n : Z) :
  x <= inject_Z n * ulp x -> roundPositive x <= inject_Z n * ulp x.
Proof.
  intros Hx. rewrite roundPositive_eq. pose proof (ulp_pos x) as Hq.
  apply Qmult_le_compat_r; [|lra]. rewrite <- Zle_Qle.
  pose proof (roundHalfEven_Z (inject_Z n) n (Qeq_refl _)) as Hn.
  rewrite <- Hn.
  apply roundHalfEven_mono. apply Qle_shift_div_r; assumption.
Qed.

Lemma roundPositive_ge_multiple (x : Q) (n : Z) :
  inject_Z n * ulp x <= x -> inject_Z n * ulp x <= roundPositive x.
Proof.
  intros Hx. rewrite roundPositive_eq. pose proof (ulp_pos x) as Hq.
  apply Qmult_le_compat_r; [|lra]. rewrite <- Zle_Qle.
  pose proof (roundHalfEven_Z (inject_Z n) n (Qeq_refl _)) as Hn.
  rewrite <- Hn.
  apply roundHalfEven_mono. apply Qle_shift_div_l; assumption.
Qed.

Lemma roundPositive_nonneg (x : Q) : 0 <= x -> 0 <= roundPositive x.
Proof.
  intros Hx. rewrite <- (Qmult_0_l (ulp x)).
  change 0 with (inject_Z 0) at 1. apply roundPositive_ge_multiple.
  change (inject_Z 0) with 0. lra.
Qed.

Lemma roundPositive_near (x : Q) :
  roundPositive x - x <= (1 # 2) * ulp x /\
  x - roundPositive x <= (1 # 2) * ulp x.
Proof.
  pose proof (ulp_pos x) as Hq. rewrite roundPositive_eq.
  destruct (roundHalfEven_near (x / ulp x)) as [Hlo Hhi].
  assert (Hx : x == x / ulp x * ulp x) by (field; lra).
  set (y := x / ulp x) in *. set (r := inject_Z (roundHalfEven y)) in *.
  assert (H1 : (y - (1 # 2)) * ulp x <= r * ulp x)
    by (apply Qmult_le_compat_r; lra).
  assert (H2 : r * ulp x <= (y + (1 # 2)) * ulp x)
    by (apply Qmult_le_compat_r; lra).
  split; lra.
Qed.

Lemma two_multiple (a k : Z) :
  (k <= a)%Z -> 2 ^ a == inject_Z (2 ^ (a - k)) * 2 ^ k.
Proof.
  intros Hk. rewrite two_inject by lia. rewrite <- two_split.
  replace (a - k + k)%Z with a by lia. reflexivity.
Qed.

Lemma roundPositive_mono (x y : Q) :
  0 < x -> x <= y -> roundPositive x <= roundPositive y.
Proof.
  intros Hx Hxy. assert (Hy : 0 < y) by lra.
  pose proof (exponentOf_mono x y Hx Hxy) as He.
  destruct (exponentOf_spec x Hx) as [_ Hxhi].
  destruct (exponentOf_spec y Hy) as [Hylo _].
  destruct (Z.eq_dec (Z.max (exponentOf x) (-1022))
                     (Z.max (exponentOf y) (-1022))) as [Heq|Hne].
  - assert (Hu : ulp x = ulp y) by (unfold ulp; rewrite Heq; reflexivity).
    rewrite !roundPositive_eq, Hu. pose proof (ulp_pos y) as Hq.
    apply Qmult_le_compat_r; [|lra]. rewrite <- Zle_Qle.
    apply roundHalfEven_mono. unfold Qdiv.
    apply Qmult_le_compat_r; [exact Hxy|].
    apply Qlt_le_weak, Qinv_lt_0_compat, Hq.
  - apply Qle_trans with (2 ^ exponentOf y).
    + assert (Hm : 2 ^ exponentOf y ==
                   inject_Z (2 ^ (exponentOf y -
                                  (Z.max (exponentOf x) (-1022) - 52))) * ulp x)
        by (apply two_multiple; lia).
      rewrite Hm. apply roundPositive_le_multiple. rewrite <- Hm.
      apply Qle_trans with (2 ^ (exponentOf x + 1)); [lra|].
      apply two_le. lia.
    + assert (Hm : 2 ^ exponentOf y ==
                   inject_Z (2 ^ (exponentOf y -
                                  (Z.max (exponentOf y) (-1022) - 52))) * ulp y)
        by (apply two_multiple; lia).
      rewrite Hm. apply roundPositive_ge_multiple. rewrite <- Hm. exact Hylo.
Qed.

Lemma round64_0 : round64 0 = 0.
Proof. reflexivity. Qed.

Lemma round64_pos (x : Q) : 0 < x -> round64 x = roundPositive x.
Proof.
  intros Hx. unfold round64.
  destruct (Qcompare_spec x 0) as [H|H|H]; [lra | lra | reflexivity].
Qed.

Lemma round64_zero (x : Q) : x == 0 -> round64 x = 0.
Proof.
  intros Hx. unfold round64.
  destruct (Qcompare_spec x 0) as [H|H|H]; [reflexivity | lra | lra].
Qed.

Lemma round64_nonneg (x : Q) : 0 <= x -> 0 <= round64 x.
Proof.
  intros Hx. destruct (Qlt_le_dec 0 x) as [Hpos|Hle].
  - rewrite round64_pos by exact Hpos. apply roundPositive_nonneg, Hx.
  - rewrite round64_zero by lra. lra.
Qed.

Lemma round64_mono (x y : Q) : 0 <= x -> x <= y -> round64 x <= round64 y.
Proof.
  intros Hx Hxy. destruct (Qlt_le_dec 0 x) as [Hpos|Hle].
  - rewrite !round64_pos by lra. apply roundPositive_mono; assumption.
  - rewrite (round64_zero x) by lra. apply round64_nonneg. lra.
Qed.

Lemma roundPositive_fixed (r : Q) (n : Z) :
  r == inject_Z n * ulp r -> roundPositive r == r.
Proof.
  intros Hr. apply Qle_antisym.
  - rewrite Hr at 2. apply roundPositive_le_multiple. rewrite <- Hr. lra.
  - rewrite Hr at 1. apply roundPositive_ge_multiple. rewrite <- Hr. lra.
Qed.

(** The rounded value is itself a binary64 number: rounding it again
    changes nothing. *)
Lemma roundPositive_idem (x : Q) :
  0 < x -> round64 (roundPositive x) == roundPositive x.
Proof.
  intros Hx.
  set (e := exponentOf x). set (k := (Z.max e (-1022) - 52)%Z).
  set (n := roundHalfEven (x / ulp x)).
  pose proof (ulp_pos x) as Hq.
  assert (Hu : ulp x = 2 ^ k) by reflexivity.
  assert (Hr : roundPositive x == inject_Z n * 2 ^ k)
    by (rewrite roundPositive_eq, Hu; reflexivity).
  destruct (exponentOf_spec x Hx) as [Hlo Hhi]. fold e in Hlo, Hhi.
  assert (Hn0 : (0 <= n)%Z).
  { unfold n. rewrite <- (roundHalfEven_Z 0 0) by reflexivity.
    apply roundHalfEven_mono. apply Qle_shift_div_l; lra. }
  destruct (Z.eq_dec n 0%Z) as [Hz|Hnz].
  - assert (H0 : roundPositive x == 0) by (rewrite Hr, Hz; ring).
    rewrite (round64_zero _ H0). symmetry. exact H0.
  - assert (Hn1 : 1 <= inject_Z n)
      by (change 1 with (inject_Z 1); rewrite <- Zle_Qle; lia).
    assert (Hrq : 2 ^ k <= roundPositive x).
    { rewrite Hr. rewrite <- (Qmult_1_l (2 ^ k)) at 1.
      apply Qmult_le_compat_r; [exact Hn1 | rewrite <- Hu; lra]. }
    assert (Hrpos : 0 < roundPositive x) by (rewrite <- Hu in Hrq; lra).
    rewrite round64_pos by exact Hrpos.
    (* x is at least half a spacing, so the spacing is at most 2^(e+1) *)
    assert (Hhalf : (1 # 2) * 2 ^ k <= x).
    { destruct (roundHalfEven_near (x / ulp x)) as [_ Hnear]. fold n in Hnear.
      assert (Hy : 1 # 2 <= x / ulp x) by lra.
      assert (Hm : (1 # 2) * ulp x <= x / ulp x * ulp x)
        by (apply Qmult_le_compat_r; lra).
      assert (Hd : x / ulp x * ulp x == x) by (field; lra).
      rewrite <- Hu. lra. }
    assert (Hk : (k <= e + 1)%Z).
    { assert (H2 : 2 ^ (k - 1) == (1 # 2) * 2 ^ k).
      { replace (k - 1)%Z with (-1 + k)%Z by lia. rewrite two_split.
        reflexivity. }
      assert (k - 1 < e + 1)%Z by (apply two_lt_inv; lra). lia. }
    assert (Htop : roundPositive x <= 2 ^ (e + 1)).
    { assert (Hm : 2 ^ (e + 1) == inject_Z (2 ^ (e + 1 - k)) * ulp x)
        by (rewrite Hu; apply two_multiple; lia).
      rewrite Hm. apply roundPositive_le_multiple. rewrite <- Hm. lra. }
    destruct (exponentOf_spec _ Hrpos) as [Hlo' Hhi'].
    set (r := roundPositive x) in *. set (e' := exponentOf r) in *.
    assert (Hstep : 2 ^ (e + 1) < 2 ^ (e + 1 + 1))
      by (apply Qpower_lt_compat_l; [lia | reflexivity]).
    assert (He' : (e' <= e + 1)%Z)
      by (assert (e' < e + 1 + 1)%Z by (apply two_lt_inv; lra); lia).
    destruct (Qlt_le_dec r (2 ^ (e + 1))) as [Hltop|Hgetop].
    + assert (e' < e + 1)%Z by (apply two_lt_inv; lra).
      apply (roundPositive_fixed r
               (n * 2 ^ (k - (Z.max e' (-1022) - 52)))%Z).
      unfold ulp. fold e'. rewrite inject_Z_mult, Hr.
      rewrite two_inject by lia. rewrite <- Qmult_assoc, <- two_split.
      replace (k - (Z.max e' (-1022) - 52) + (Z.max e' (-1022) - 52))%Z
        with k by lia.
      reflexivity.
    + assert (Hreq : r == 2 ^ (e + 1)) by lra.
      assert (Hex : e' = (e + 1)%Z).
      { apply exponentOf_unique; lra. }
      apply (roundPositive_fixed r
               (2 ^ (e + 1 - (Z.max e' (-1022) - 52)))%Z).
      unfold ulp. fold e'. rewrite Hreq. apply two_multiple. lia.
Qed.

Lemma round64_idem (x : Q) : 0 <= x -> round64 (round64 x) == round64 x.
Proof.
  intros Hx. destruct (Qlt_le_dec 0 x) as [Hpos|Hle].
  - rewrite (round64_pos x Hpos). apply roundPositive_idem, Hpos.
  - rewrite (round64_zero x) by lra. reflexivity.
Qed.

(** Integers below 2^53 are binary64 numbers. *)
Lemma round64_integer (z : Z) :
  (0 <= z < 2 ^ 53)%Z -> round64 (inject_Z z) == inject_Z z.
Proof.
  intros [Hz0 Hz53]. destruct (Z.eq_dec z 0%Z) as [->|Hnz]; [reflexivity|].
  assert (Hpos : 0 < inject_Z z)
    by (change 0 with (inject_Z 0); rewrite <- Zlt_Qlt; lia).
  rewrite round64_pos by exact Hpos.
  destruct (exponentOf_spec _ Hpos) as [Hlo Hhi].
  set (e := exponentOf (inject_Z z)) in *.
  assert (He0 : (0 <= e)%Z).
  { assert (H1 : 2 ^ 0 <= inject_Z z).
    { change (2 ^ 0) with (inject_Z 1). rewrite <- Zle_Qle. lia. }
    assert (0 < e + 1)%Z by (apply two_lt_inv; lra). lia. }
  assert (He52 : (e <= 52)%Z).
  { assert (H1 : inject_Z z < 2 ^ 53).
    { rewrite <- two_inject by lia. rewrite <- Zlt_Qlt. exact Hz53. }
    assert (e < 53)%Z by (apply two_lt_inv; lra). lia. }
  apply (roundPositive_fixed _ (z * 2 ^ (52 - e))%Z).
  unfold ulp. fold e. rewrite inject_Z_mult, two_inject by lia.
  rewrite <- Qmult_assoc, <- two_split.
  replace (52 - e + (Z.max e (-1022) - 52))%Z with 0%Z by lia.
  change (2 ^ 0) with 1. ring.
Qed.

(** The rounding error is at most half the spacing of the binade. *)
Lemma round64_error (x : Q) (E : Z) :
  0 <= x -> x < 2 ^ (E + 1) -> (-1022 <= E)%Z ->
  round64 x - x <= 2 ^ (E - 53) /\ x - round64 x <= 2 ^ (E - 53).
Proof.
  intros Hx Hhi HE. pose proof (two_pos (E - 53)) as Hp.
  destruct (Qlt_le_dec 0 x) as [Hpos|Hle].
  - rewrite round64_pos by exact Hpos.
    destruct (exponentOf_spec x Hpos) as [Hlo _].
    assert (He : (exponentOf x < E + 1)%Z) by (apply two_lt_inv; lra).
    assert (Hu : (1 # 2) * ulp x <= 2 ^ (E - 53)).
    { assert (H2 : 2 ^ (E - 53) == (1 # 2) * 2 ^ (E - 52)).
      { replace (E - 53)%Z with (-1 + (E - 52))%Z by lia.
        rewrite two_split. reflexivity. }
      rewrite H2. apply Qmult_le_l; [reflexivity|].
      unfold ulp. apply two_le. lia. }
    destruct (roundPositive_near x). split; lra.
  - rewrite round64_zero by lra. split; lra.
Qed.

End Rounding.

(** ** Basic facts about the setters and the effect *)

Lemma setStep_step (s : WorkflowStep) (st : State) : step (setStep s st) = s.
Proof.
  unfold setStep, effectBody, effectCleanup.
  repeat case_decide; simpl in *; congruence.
Qed.

Lemma setStep_frame (s : WorkflowStep) (st : State) :
  file (setStep s st) = file st ∧
  dialogOpen (setStep s st) = dialogOpen st ∧
  selectedOptions (setStep s st) = selectedOptions st ∧
  pendingSummary (setStep s st) = pendingSummary st.
Proof.
  unfold setStep, effectBody, effectCleanup.
  repeat case_decide; simpl; auto.
Qed.

Lemma setStep_enter_processing (st : State) :
  step st ≠ processing →
  progress (setStep processing st) = 0%Q ∧ timer (setStep processing st) = true.
Proof.
  intros Hne. unfold setStep, effectBody, effectCleanup.
  repeat case_decide; simpl in *; try congruence; auto.
Qed.

Lemma setStep_leave_processing (s : WorkflowStep) (st : State) :
  s ≠ processing →
  progress (setStep s st) = progress st ∧
  (timer (setStep s st) = true → timer st = true ∧ step st ≠ processing).
Proof.
  intros Hne. unfold setStep, effectBody, effectCleanup.
  repeat case_decide; simpl in *; try congruence;
    (split; [reflexivity | intros Ht; split; congruence]).
Qed.

Lemma analysisReady_false (st : State) :
  analysisReady st = false ↔ file st = None ∨ selectedOptions st = [].
Proof.
  unfold analysisReady.
  destruct (file st) as [f|], (selectedOptions st) as [|o os]; simpl;
    split; intros H; auto; try discriminate;
    destruct H as [H|H]; discriminate.
Qed.

Lemma analysisReady_true (st : State) :
  analysisReady st = true ↔ (∃ f, file st = Some f) ∧ selectedOptions st ≠ [].
Proof.
  unfold analysisReady.
  destruct (file st) as [f|], (selectedOptions st) as [|o os]; simpl.
  - split; [discriminate | intros [_ H]; congruence].
  - split; [intros _; split; [eauto | discriminate] | reflexivity].
  - split; [discriminate | intros [[f H] _]; discriminate].
  - split; [discriminate | intros [[f H] _]; discriminate].
Qed.

(** ** Request start *)

(** C3: [startAnalysis] is the identity on every state in which no file
    is selected or the scanner list is empty: the handler is a total
    function (nothing can be raised) and every state component,
    including [phase], [dialogOpen], [progress], [selectedFile] and
    [selectedScanners], is unchanged. *)
Theorem startAnalysis_not_ready_noop (st : State)
    (Hpre : file st = None ∨ selectedOptions st = []) :
  analysisReady st = false ∧
  startAnalysis st = st ∧
  dispatch StartAnalysis st = Some st.
Proof.
  apply analysisReady_false in Hpre.
  unfold dispatch, startAnalysis. rewrite Hpre. simpl. auto.
Qed.

Lemma startAnalysis_not_ready_noop_witness :
  let st := mkState None true [] summary 100 false 0 in
  analysisReady st = false ∧ startAnalysis st = st ∧
  dispatch StartAnalysis st = Some st.
Proof.
  intros st. apply (startAnalysis_not_ready_noop st). left. reflexivity.
Defined.

(** C5: when a file is selected and the scanner list is not empty,
    [startAnalysis] called in phase [idle] or [summary] closes the
    dialog, moves to [processing] and the entry into [processing]
    resets [progress] to 0 (and starts the interval); the file and the
    scanner list are kept. *)
Theorem startAnalysis_ready (st : State) (f : File)
    (Hfile : file st = Some f)
    (Hsel : selectedOptions st ≠ [])
    (Hstep : step st = idle ∨ step st = summary) :
  let st' := startAnalysis st in
  dialogOpen st' = false ∧
  step st' = processing ∧
  progress st' = 0%Q ∧
  timer st' = true ∧
  file st' = Some f ∧
  selectedOptions st' = selectedOptions st.
Proof.
  assert (Hready : analysisReady st = true)
    by (apply analysisReady_true; eauto).
  assert (Hne : step (setDialogOpen false st) ≠ processing)
    by (simpl; destruct Hstep as [-> | ->]; discriminate).
  simpl. unfold startAnalysis. rewrite Hready. simpl.
  destruct (setStep_frame processing (setDialogOpen false st))
    as (Hf & Hd & Hs & _).
  destruct (setStep_enter_processing _ Hne) as [Hp Ht].
  rewrite setStep_step, Hf, Hd, Hs, Hp, Ht. simpl. repeat split; assumption.
Qed.

Lemma startAnalysis_ready_witness :
  let st := mkState (Some apk) true ["mobsf"] summary 100 false 0 in
  let st' := startAnalysis st in
  dialogOpen st' = false ∧ step st' = processing ∧ progress st' = 0%Q ∧
  timer st' = true ∧ file st' = Some apk ∧
  selectedOptions st' = selectedOptions st.
Proof.
  intros st.
  apply (startAnalysis_ready st apk);
    [reflexivity | discriminate | right; reflexivity].
Defined.

(** ** Reset *)

(** C6: [resetWorkflow], in any state, sets [progress] to 0 and [step]
    to [idle] and leaves [file], [selectedOptions] and [dialogOpen] as
    they were. *)
Theorem resetWorkflow_effect (st : State) :
  let st' := resetWorkflow st in
  progress st' = 0%Q ∧
  step st' = idle ∧
  file st' = file st ∧
  selectedOptions st' = selectedOptions st ∧
  dialogOpen st' = dialogOpen st.
Proof.
  simpl. unfold resetWorkflow.
  destruct (setStep_frame idle (setProgress 0 st)) as (Hf & Hd & Hs & _).
  destruct (setStep_leave_processing idle (setProgress 0 st)) as [Hp _];
    [discriminate|].
  rewrite setStep_step, Hf, Hd, Hs, Hp. simpl. auto.
Qed.

(** ** Set file *)

(** C8: a change event that carries a file stores it, whatever the file
    is and whatever was stored before, and touches nothing else (in
    particular not [step]); a change event without a file (no list, or
    an empty list after a cancelled picker) changes nothing. *)
Theorem handleFileChange_effect (st : State) (f : File) (rest : list File) :
  let st' := handleFileChange (Some (f :: rest)) st in
  file st' = Some f ∧
  step st' = step st ∧
  dialogOpen st' = dialogOpen st ∧
  selectedOptions st' = selectedOptions st ∧
  progress st' = progress st ∧
  timer st' = timer st ∧
  pendingSummary st' = pendingSummary st ∧
  handleFileChange None st = st ∧
  handleFileChange (Some []) st = st.
Proof. simpl. repeat split. Qed.

(** ** The scanner list *)

Lemma toggleOption_unfold (optionId : string) (st : State) :
  optionId ≠ "mobsf" →
  toggleOption optionId st = setSelectedOptions (toggled optionId) st.
Proof.
  intros Hne. unfold toggleOption. case_decide; [contradiction | reflexivity].
Qed.

Lemma toggleOption_selected (optionId : string) (st : State) :
  selectedOptions (toggleOption optionId st) =
  if decide (optionId = "mobsf") then selectedOptions st
  else toggled optionId (selectedOptions st).
Proof. unfold toggleOption. case_decide; reflexivity. Qed.

Lemma toggleOption_frame (optionId : string) (st : State) :
  file (toggleOption optionId st) = file st ∧
  dialogOpen (toggleOption optionId st) = dialogOpen st ∧
  step (toggleOption optionId st) = step st ∧
  progress (toggleOption optionId st) = progress st ∧
  timer (toggleOption optionId st) = timer st ∧
  pendingSummary (toggleOption optionId st) = pendingSummary st.
Proof. unfold toggleOption. case_decide; simpl; repeat split. Qed.

Section Toggled.
Variable optionId : string.

Lemma filter_other_id (l : list string) :
  optionId ∉ l → filter (fun id => id ≠ optionId) l = l.
Proof.
  induction l as [|y l IH]; intros Hnotin; [reflexivity|].
  apply not_elem_of_cons in Hnotin as [Hy Hl].
  rewrite filter_cons_True by congruence. f_equal. auto.
Qed.

Lemma filter_same_id (l : list string) :
  optionId ∈ l → (occurrences optionId l ≤ 1)%nat →
  filter (fun id => ¬ id ≠ optionId) l = [optionId].
Proof.
  unfold occurrences. intros Hin Hocc.
  assert (Hiff : filter (fun id => ¬ id ≠ optionId) l =
                 filter (fun id => id = optionId) l).
  { apply list_filter_iff. intros y. split; [|congruence].
    intros Hy. destruct (decide (y = optionId)); tauto. }
  rewrite Hiff.
  assert (Hmem : optionId ∈ filter (fun id => id = optionId) l)
    by (apply list_elem_of_filter; auto).
  destruct (filter (fun id => id = optionId) l) as [|a [|b k]] eqn:E.
  - inversion Hmem.
  - assert (Ha : a ∈ filter (fun id => id = optionId) l)
      by (rewrite E; left).
    apply list_elem_of_filter in Ha as [-> _]. reflexivity.
  - simpl in Hocc. lia.
Qed.

Lemma toggled_elem_of (l : list string) (x : string) :
  x ≠ optionId → x ∈ toggled optionId l ↔ x ∈ l.
Proof.
  intros Hx. unfold toggled. case_decide.
  - rewrite list_elem_of_filter. tauto.
  - rewrite elem_of_app, list_elem_of_singleton. tauto.
Qed.

Lemma toggled_flips (l : list string) :
  optionId ∈ toggled optionId l ↔ optionId ∉ l.
Proof.
  unfold toggled. case_decide as Hin.
  - rewrite list_elem_of_filter. tauto.
  - rewrite elem_of_app, list_elem_of_singleton. tauto.
Qed.

Lemma toggled_NoDup (l : list string) : NoDup l → NoDup (toggled optionId l).
Proof.
  intros Hnd. unfold toggled. case_decide as Hin.
  - apply NoDup_filter, Hnd.
  - apply NoDup_app. split; [exact Hnd|]. split; [|apply NoDup_singleton].
    intros x Hx Hx'. apply list_elem_of_singleton in Hx'. congruence.
Qed.

Lemma toggled_twice_absent (l : list string) :
  optionId ∉ l → toggled optionId (toggled optionId l) = l.
Proof.
  intros Hnotin. unfold toggled at 2. case_decide; [contradiction|].
  unfold toggled. case_decide as Hin.
  - rewrite filter_app, filter_other_id by assumption.
    rewrite filter_cons_False, filter_nil by tauto.
    apply app_nil_r.
  - exfalso. apply Hin. apply elem_of_app. right. left.
Qed.

Lemma toggled_twice_present (l : list string) :
  optionId ∈ l → (occurrences optionId l ≤ 1)%nat →
  toggled optionId (toggled optionId l) ≡ₚ l.
Proof.
  intros Hin Hocc. unfold toggled at 2. case_decide; [|contradiction].
  unfold toggled. case_decide as Hin'.
  - apply list_elem_of_filter in Hin' as [Hne _]. congruence.
  - rewrite <- (filter_same_id l Hin Hocc).
    apply (filter_app_complement (fun id => id ≠ optionId)).
Qed.

Lemma toggled_twice_same_set (l : list string) (x : string) :
  x ∈ toggled optionId (toggled optionId l) ↔ x ∈ l.
Proof.
  destruct (decide (x = optionId)) as [->|Hx].
  - rewrite !toggled_flips. destruct (decide (optionId ∈ l)); tauto.
  - rewrite !toggled_elem_of by assumption. reflexivity.
Qed.
End Toggled.

(** C9: for an id other than the required one that occurs at most once
    in the scanner list, toggling it twice gives back the same ids: the
    result is a permutation of the original list (hence the same set),
    it is the original list itself when the id was not selected, and
    no other state component moves. *)
Theorem toggleOption_twice (optionId : string) (st : State)
    (Hopt : optionId ≠ "mobsf")
    (Honce : (occurrences optionId (selectedOptions st) ≤ 1)%nat) :
  let st'' := toggleOption optionId (toggleOption optionId st) in
  selectedOptions st'' ≡ₚ selectedOptions st ∧
  (∀ x, x ∈ selectedOptions st'' ↔ x ∈ selectedOptions st) ∧
  (optionId ∉ selectedOptions st → st'' = st) ∧
  file st'' = file st ∧ dialogOpen st'' = dialogOpen st ∧
  step st'' = step st ∧ progress st'' = progress st.
Proof.
  simpl. rewrite !toggleOption_unfold by assumption.
  destruct st as [f d sel s p t n]; simpl in *.
  split; [|split; [|split]].
  - destruct (decide (optionId ∈ sel)) as [Hin|Hnotin].
    + apply toggled_twice_present; assumption.
    + rewrite toggled_twice_absent by assumption. reflexivity.
  - apply toggled_twice_same_set.
  - intros Hnotin. unfold setSelectedOptions; simpl.
    rewrite toggled_twice_absent by assumption. reflexivity.
  - repeat split.
Qed.

Lemma toggleOption_twice_witness :
  let st := mkState None false ["mobsf"; "frida"; "drozer"] idle 0 false 0 in
  let st'' := toggleOption "frida" (toggleOption "frida" st) in
  selectedOptions st'' ≡ₚ selectedOptions st ∧
  (∀ x, x ∈ selectedOptions st'' ↔ x ∈ selectedOptions st) ∧
  ("frida" ∉ selectedOptions st → st'' = st) ∧
  file st'' = file st ∧ dialogOpen st'' = dialogOpen st ∧
  step st'' = step st ∧ progress st'' = progress st.
Proof.
  intros st. apply (toggleOption_twice "frida" st).
  - discriminate.
  - vm_compute. lia.
Defined.

Example toggle_twice_reorders :
  selectedOptions
    (toggleOption "frida"
       (toggleOption "frida"
          (mkState None false ["mobsf"; "frida"; "drozer"] idle 0 false 0))) =
  ["mobsf"; "drozer"; "frida"].
Proof. reflexivity. Qed.

(** ** Invariants of the scanner list along arbitrary runs *)

Lemma tick_frame (random : Q) (st : State) :
  file (tick random st) = file st ∧
  dialogOpen (tick random st) = dialogOpen st ∧
  selectedOptions (tick random st) = selectedOptions st ∧
  step (tick random st) = step st.
Proof. unfold tick. destruct (Qle_bool _ _); simpl; repeat split. Qed.

Lemma setStep_selectedOptions (s : WorkflowStep) (st : State) :
  selectedOptions (setStep s st) = selectedOptions st.
Proof. apply setStep_frame. Qed.

Lemma tick_selectedOptions (random : Q) (st : State) :
  selectedOptions (tick random st) = selectedOptions st.
Proof. apply tick_frame. Qed.

(** Only [toggleOption] ever writes [selectedOptions]. *)
Lemma dispatch_selectedOptions (ev : Event) (st st' : State) :
  dispatch ev st = Some st' →
  selectedOptions st' = selectedOptions st ∨
  ∃ optionId, optionId ≠ "mobsf" ∧
    selectedOptions st' = toggled optionId (selectedOptions st).
Proof.
  destruct ev as [files|b|optionId| | |random|]; simpl; intros Hd.
  - injection Hd as <-. left. unfold handleFileChange.
    destruct (firstFile files); reflexivity.
  - injection Hd as <-. left. reflexivity.
  - injection Hd as <-. rewrite toggleOption_selected.
    case_decide; [left; reflexivity | right; eauto].
  - injection Hd as <-. left. unfold startAnalysis.
    destruct (negb (analysisReady st)); [reflexivity|].
    rewrite setStep_selectedOptions. reflexivity.
  - injection Hd as <-. left. unfold resetWorkflow.
    rewrite setStep_selectedOptions. reflexivity.
  - destruct (timer st); [|discriminate]. injection Hd as <-.
    left. apply tick_selectedOptions.
  - destruct (pendingSummary st) as [|n]; [discriminate|].
    injection Hd as <-. left. unfold timeoutCallback.
    rewrite setStep_selectedOptions. reflexivity.
Qed.

Lemma dispatch_requiredSelected (ev : Event) (st st' : State) :
  dispatch ev st = Some st' → requiredSelected st → requiredSelected st'.
Proof.
  unfold requiredSelected. intros Hd Hin.
  destruct (dispatch_selectedOptions _ _ _ Hd) as [-> | (o & Ho & ->)];
    [assumption|].
  apply toggled_elem_of; [congruence | assumption].
Qed.

Lemma dispatch_NoDup (ev : Event) (st st' : State) :
  dispatch ev st = Some st' →
  NoDup (selectedOptions st) → NoDup (selectedOptions st').
Proof.
  intros Hd Hnd.
  destruct (dispatch_selectedOptions _ _ _ Hd) as [-> | (o & Ho & ->)];
    [assumption|].
  apply toggled_NoDup, Hnd.
Qed.

(** Invariants are carried along [run] by induction on the event list. *)
Lemma run_invariant (P : State → Prop) :
  (∀ ev st st', dispatch ev st = Some st' → P st → P st') →
  ∀ evs st st', run evs st = Some st' → P st → P st'.
Proof.
  intros Hstep evs. induction evs as [|ev evs IH]; simpl; intros st st' Hrun HP.
  - injection Hrun as <-. exact HP.
  - destruct (dispatch ev st) as [st1|] eqn:Hd; [|discriminate].
    eapply IH; eauto.
Qed.

Lemma toggleAll_run (ids : list string) (st : State) :
  run (ToggleOption <$> ids) st = Some (toggleAll ids st).
Proof.
  revert st. induction ids as [|optionId ids IH]; intros st; simpl;
    [reflexivity | apply IH].
Qed.

(** C2: the required id is in the initial scanner list, toggling it is
    the identity, and from any state whose list contains it, every
    sequence of toggles (of any ids), and more generally every run of
    events, ends in a state whose list still contains it. *)
Theorem required_scanner_always_selected
    (st : State) (ids : list string) (evs : list Event) (st' : State)
    (Hin : "mobsf" ∈ selectedOptions st)
    (Hrun : run evs st = Some st') :
  "mobsf" ∈ selectedOptions initialState ∧
  toggleOption "mobsf" st = st ∧
  "mobsf" ∈ selectedOptions (toggleAll ids st) ∧
  "mobsf" ∈ selectedOptions st'.
Proof.
  split; [left|]. split; [reflexivity|]. split.
  - apply (run_invariant requiredSelected dispatch_requiredSelected
             (ToggleOption <$> ids) st); [apply toggleAll_run | exact Hin].
  - exact (run_invariant requiredSelected dispatch_requiredSelected
             evs st st' Hrun Hin).
Qed.

Lemma required_scanner_always_selected_witness :
  let st := mkState None false ["frida"; "mobsf"] idle 0 false 0 in
  let ids := ["frida"; "mobsf"; "drozer"; "mobsf"; "drozer"; "nmap"] in
  let evs := [FileChange (Some [apk]); ToggleOption "frida"; StartAnalysis;
              IntervalTick (1 # 2); ResetWorkflow] in
  "mobsf" ∈ selectedOptions initialState ∧
  toggleOption "mobsf" st = st ∧
  "mobsf" ∈ selectedOptions (toggleAll ids st) ∧
  "mobsf" ∈ selectedOptions
    (mkState (Some apk) false ["mobsf"] idle 0 false 0).
Proof.
  intros st ids evs.
  apply (required_scanner_always_selected st ids evs).
  - right. left.
  - reflexivity.
Defined.

(** C10: the scanner list never holds an id twice: the initial list is
    duplicate-free and every run of events (file changes, toggles,
    start requests, resets, timer callbacks) from a state with a
    duplicate-free list ends in a state with a duplicate-free list.  A
    single operation is the run of length one. *)
Theorem selectedOptions_NoDup (evs : list Event) (st st' : State)
    (Hnd : NoDup (selectedOptions st))
    (Hrun : run evs st = Some st') :
  NoDup (selectedOptions initialState) ∧ NoDup (selectedOptions st').
Proof.
  split; [apply NoDup_singleton|].
  exact (run_invariant (fun s => NoDup (selectedOptions s)) dispatch_NoDup
           evs st st' Hrun Hnd).
Qed.

Lemma selectedOptions_NoDup_witness :
  NoDup (selectedOptions initialState) ∧
  NoDup (selectedOptions
           (mkState (Some apk) false ["mobsf"; "drozer"; "frida"]
                    idle 0 false 0)).
Proof.
  apply (selectedOptions_NoDup
           [ToggleOption "frida"; ToggleOption "drozer"; ToggleOption "mobsf";
            ToggleOption "frida"; FileChange (Some [apk]); StartAnalysis;
            ResetWorkflow; ToggleOption "frida"]
           initialState).
  - apply NoDup_singleton.
  - reflexivity.
Defined.

(** ** The report *)

(** C7: the report shown in phase [summary] is the constant
    [summaryTemplate]: any two runs, from any two states (whatever file
    and scanner ids they hold) and along any events, that end in phase
    [summary] expose the same report, equal to its static definition;
    in every other phase nothing is exposed. *)
Theorem renderedSummary_constant
    (st1 st2 : State) (evs1 evs2 : list Event) (st1' st2' : State)
    (Hrun1 : run evs1 st1 = Some st1')
    (Hrun2 : run evs2 st2 = Some st2')
    (Hs1 : step st1' = summary)
    (Hs2 : step st2' = summary) :
  renderedSummary st1' = Some summaryTemplate ∧
  renderedSummary st1' = renderedSummary st2' ∧
  summaryData st1' = summaryData st2' ∧
  (∀ st, step st ≠ summary → renderedSummary st = None).
Proof.
  unfold renderedSummary, summaryData. rewrite Hs1, Hs2.
  repeat split. intros st Hne. case_decide; [contradiction | reflexivity].
Qed.

(** ** Progress *)

Lemma isDouble_0 : isDouble 0.
Proof. reflexivity. Qed.

Lemma isDouble_100 : isDouble 100.
Proof. apply (round64_integer 100). split; [discriminate | reflexivity]. Qed.

Lemma round64_18 : (round64 18 == 18)%Q.
Proof. apply (round64_integer 18). split; [discriminate | reflexivity]. Qed.

(** The increment [Math.random () * 18] lies between 0 and 18. *)
Lemma increment_bounds (random : Q) :
  randomOk random →
  (0 <= round64 (random * 18))%Q ∧ (round64 (random * 18) <= 18)%Q.
Proof.
  intros [Hr0 Hr1]. split.
  - apply round64_nonneg. lra.
  - pose proof round64_18 as H18.
    assert (Hm : (round64 (random * 18) <= round64 18)%Q)
      by (apply round64_mono; lra).
    lra.
Qed.

(** The binary64 result of one tick is within [tickSlack] of the exact
    sum [prev + random * 18]. *)
Lemma tick_error (prev random : Q) :
  (0 <= prev)%Q → (prev <= 100)%Q → randomOk random →
  (round64 (prev + round64 (random * 18)) - (prev + random * 18)
     <= tickSlack)%Q ∧
  (prev + random * 18 - round64 (prev + round64 (random * 18))
     <= tickSlack)%Q.
Proof.
  intros H0 H100 Hr. destruct (increment_bounds random Hr) as [Hi0 Hi18].
  destruct Hr as [Hr0 Hr1].
  assert (H32 : (2 ^ (4 + 1) == 32)%Q) by reflexivity.
  assert (H128 : (2 ^ (6 + 1) == 128)%Q) by reflexivity.
  assert (H49 : (2 ^ (4 - 53) == 1 # 562949953421312)%Q) by reflexivity.
  assert (H47 : (2 ^ (6 - 53) == 1 # 140737488355328)%Q) by reflexivity.
  destruct (round64_error (random * 18) 4) as [Hm1 Hm2]; [lra | lra | lia |].
  destruct (round64_error (prev + round64 (random * 18)) 6) as [Ha1 Ha2];
    [lra | lra | lia |].
  unfold tickSlack. split; lra.
Qed.

Lemma nextProgress_bounds (prev random : Q) :
  inRange prev → randomOk random →
  inRange (nextProgress prev random) ∧
  (nextProgress prev random <= round64 (prev + 18))%Q.
Proof.
  unfold inRange, nextProgress. intros [H0 H100] Hr.
  destruct (increment_bounds random Hr) as [Hi0 Hi18].
  assert (Hz : (0 <= round64 (prev + round64 (random * 18)))%Q)
    by (apply round64_nonneg; lra).
  assert (Hup : (round64 (prev + round64 (random * 18)) <=
                 round64 (prev + 18))%Q)
    by (apply round64_mono; lra).
  destruct (Q.min_spec 100 (round64 (prev + round64 (random * 18))))
    as [[Hlt Heq] | [Hle Heq]]; rewrite Heq; repeat split; lra.
Qed.

(** Rounding never takes the sum below a [prev] that is itself a
    binary64 number. *)
Lemma nextProgress_ge (prev random : Q) :
  inRange prev → isDouble prev → randomOk random →
  (prev <= nextProgress prev random)%Q.
Proof.
  unfold inRange, isDouble, nextProgress. intros [H0 H100] Hd Hr.
  destruct (increment_bounds random Hr) as [Hi0 _].
  assert (Hup : (round64 prev <= round64 (prev + round64 (random * 18)))%Q)
    by (apply round64_mono; lra).
  destruct (Q.min_spec 100 (round64 (prev + round64 (random * 18))))
    as [[Hlt Heq] | [Hle Heq]]; rewrite Heq; lra.
Qed.

Lemma nextProgress_isDouble (prev random : Q) :
  inRange prev → randomOk random → isDouble (nextProgress prev random).
Proof.
  unfold inRange, nextProgress. intros [H0 H100] Hr.
  destruct (increment_bounds random Hr) as [Hi0 _].
  unfold Qmin, GenericMinMax.gmin.
  destruct (100 ?= round64 (prev + round64 (random * 18)))%Q;
    try apply isDouble_100.
  apply round64_idem. lra.
Qed.

(** The test [next >= 100] succeeds only on the clamped value itself. *)
Lemma nextProgress_reached (prev random : Q) :
  Qle_bool 100 (nextProgress prev random) = true ↔
  nextProgress prev random = 100%Q.
Proof.
  unfold nextProgress, Qmin, GenericMinMax.gmin. split.
  - destruct (Qcompare_spec 100 (round64 (prev + round64 (random * 18))))
      as [Hc|Hc|Hc]; try reflexivity.
    intros Hle. apply Qle_bool_iff in Hle. lra.
  - intros ->. reflexivity.
Qed.

(** The two ways the clamp can go. *)
Lemma nextProgress_cases (prev random : Q) :
  ((100 <= round64 (prev + round64 (random * 18)))%Q ∧
   nextProgress prev random = 100%Q) ∨
  ((round64 (prev + round64 (random * 18)) < 100)%Q ∧
   (nextProgress prev random ==
    round64 (prev + round64 (random * 18)))%Q ∧
   (nextProgress prev random < 100)%Q).
Proof.
  destruct (Qlt_le_dec (round64 (prev + round64 (random * 18))) 100)
    as [Hlt|Hge].
  - right. split; [exact Hlt|].
    assert (Heq : (nextProgress prev random ==
                   round64 (prev + round64 (random * 18)))%Q).
    { unfold nextProgress.
      destruct (Q.min_spec 100 (round64 (prev + round64 (random * 18))))
        as [[Hc _] | [_ Heq]]; [lra | exact Heq]. }
    split; [exact Heq | lra].
  - left. split; [exact Hge|]. apply nextProgress_reached.
    apply Qle_bool_iff. unfold nextProgress.
    destruct (Q.min_spec 100 (round64 (prev + round64 (random * 18))))
      as [[_ Heq] | [_ Heq]]; rewrite Heq; lra.
Qed.

Lemma tick_progress (random : Q) (st : State) :
  progress (tick random st) = nextProgress (progress st) random.
Proof. unfold tick, nextProgress. destruct (Qle_bool _ _); reflexivity. Qed.

Lemma tick_schedule (random : Q) (st : State) :
  (progress (tick random st) = 100%Q ∧
   timer (tick random st) = false ∧
   pendingSummary (tick random st) = S (pendingSummary st)) ∨
  (progress (tick random st) ≠ 100%Q ∧
   timer (tick random st) = timer st ∧
   pendingSummary (tick random st) = pendingSummary st).
Proof.
  rewrite tick_progress. unfold tick. fold (nextProgress (progress st) random).
  destruct (Qle_bool 100 (nextProgress (progress st) random)) eqn:Hle; simpl.
  - left. apply nextProgress_reached in Hle. auto.
  - right. split; [|auto]. intros Heq.
    apply nextProgress_reached in Heq. congruence.
Qed.

Lemma inRange_0 : inRange 0.
Proof. unfold inRange. lra. Qed.

Lemma timerInv_initial : timerInv initialState.
Proof. split; [apply inRange_0 | discriminate]. Qed.

Lemma setStep_timerInv (s : WorkflowStep) (st : State) :
  timerInv st → timerInv (setStep s st).
Proof.
  unfold timerInv, setStep, effectBody, effectCleanup.
  intros [Hp Ht]. repeat case_decide; simpl in *; subst;
    (split; [assumption || apply inRange_0 | ]);
    try (intros; reflexivity); try discriminate; try assumption.
  all: intros Htrue; specialize (Ht Htrue); congruence.
Qed.

Lemma dispatch_timerInv (ev : Event) (st st' : State) :
  eventOk ev → dispatch ev st = Some st' → timerInv st → timerInv st'.
Proof.
  destruct ev as [files|b|optionId| | |random|]; simpl; intros Hok Hd Hinv.
  - injection Hd as <-. unfold handleFileChange.
    destruct (firstFile files); exact Hinv.
  - injection Hd as <-. exact Hinv.
  - injection Hd as <-. unfold timerInv.
    destruct (toggleOption_frame optionId st) as (_ & _ & -> & -> & -> & _).
    exact Hinv.
  - injection Hd as <-. unfold startAnalysis.
    destruct (negb (analysisReady st)); [exact Hinv|].
    apply setStep_timerInv. exact Hinv.
  - injection Hd as <-. unfold resetWorkflow.
    apply setStep_timerInv. destruct Hinv as [_ Ht].
    split; [apply inRange_0 | exact Ht].
  - destruct (timer st) eqn:Htimer; [|discriminate]. injection Hd as <-.
    destruct Hinv as [Hp Ht]. split.
    + rewrite tick_progress. apply nextProgress_bounds; assumption.
    + intros _. destruct (tick_frame random st) as (_ & _ & _ & ->). auto.
  - destruct (pendingSummary st) as [|n]; [discriminate|].
    injection Hd as <-. apply setStep_timerInv. exact Hinv.
Qed.

Lemma run_invariant_ok (P : State → Prop) :
  (∀ ev st st', eventOk ev → dispatch ev st = Some st' → P st → P st') →
  ∀ evs st st', Forall eventOk evs → run evs st = Some st' → P st → P st'.
Proof.
  intros Hstep evs. induction evs as [|ev evs IH]; simpl;
    intros st st' Hok Hrun HP.
  - injection Hrun as <-. exact HP.
  - destruct (dispatch ev st) as [st1|] eqn:Hd; [|discriminate].
    apply Forall_cons in Hok as [Hev Hevs]. eapply IH; eauto.
Qed.

(** [progress] only ever holds binary64 numbers. *)
Lemma setStep_progress (s : WorkflowStep) (st : State) :
  progress (setStep s st) = progress st ∨ progress (setStep s st) = 0%Q.
Proof.
  unfold setStep, effectBody, effectCleanup.
  repeat case_decide; simpl; auto.
Qed.

Lemma dispatch_doubleInv (ev : Event) (st st' : State) :
  eventOk ev → dispatch ev st = Some st' →
  timerInv st ∧ isDouble (progress st) →
  timerInv st' ∧ isDouble (progress st').
Proof.
  intros Hok Hd [Hinv Hdbl].
  split; [exact (dispatch_timerInv ev st st' Hok Hd Hinv)|].
  destruct ev as [files|b|optionId| | |random|]; simpl in Hd.
  - injection Hd as <-. unfold handleFileChange.
    destruct (firstFile files); exact Hdbl.
  - injection Hd as <-. exact Hdbl.
  - injection Hd as <-.
    destruct (toggleOption_frame optionId st) as (_ & _ & _ & -> & _).
    exact Hdbl.
  - injection Hd as <-. unfold startAnalysis.
    destruct (negb (analysisReady st)); [exact Hdbl|].
    destruct (setStep_progress processing (setDialogOpen false st))
      as [-> | ->]; [exact Hdbl | apply isDouble_0].
  - injection Hd as <-. unfold resetWorkflow.
    destruct (setStep_progress idle (setProgress 0 st)) as [-> | ->];
      apply isDouble_0.
  - destruct (timer st); [|discriminate]. injection Hd as <-.
    rewrite tick_progress. apply nextProgress_isDouble; [apply Hinv | exact Hok].
  - destruct (pendingSummary st) as [|n]; [discriminate|].
    injection Hd as <-. unfold timeoutCallback.
    destruct (setStep_progress summary
                (mkState (file st) (dialogOpen st) (selectedOptions st)
                         (step st) (progress st) (timer st) n))
      as [-> | ->]; [exact Hdbl | apply isDouble_0].
Qed.

Lemma progressTrace_spec (randoms : list Q) :
  Forall randomOk randoms →
  ∀ st, inRange (progress st) → isDouble (progress st) →
    nonDecreasing (progress st :: progressTrace randoms st) ∧
    Forall inRange (progressTrace randoms st).
Proof.
  induction 1 as [|random randoms Hr Hrs IH]; intros st Hp Hd; simpl;
    [split; [exact I | constructor]|].
  destruct (timer st); [|split; [exact I | constructor]].
  pose proof (nextProgress_bounds _ _ Hp Hr) as [Hin _].
  pose proof (nextProgress_ge _ _ Hp Hd Hr) as Hle.
  pose proof (nextProgress_isDouble _ _ Hp Hr) as Hd'.
  rewrite <- tick_progress in Hle, Hin, Hd'.
  destruct (IH (tick random st) Hin Hd') as [Hnd Hall].
  split; [split; assumption | constructor; assumption].
Qed.

(** C4: in every state reached by a run of events (with random draws in
    the unit interval) from a state that satisfies [timerInv] and whose
    [progress] is a binary64 number, such as the initial one, the
    progress values produced by successive interval ticks form a
    non-decreasing sequence within [0,100], and ticks only happen in
    phase [processing].  One tick replaces [progress] by the minimum of
    100 and the binary64 sum of [progress] and the increment, where the
    increment, the binary64 product of the draw and 18, lies between 0
    and 18; so [progress] never falls, never exceeds what adding 18
    would give and rises by less than 18 + 2^-46.  The delayed transition to [summary] is scheduled by a
    tick exactly when that tick leaves [progress] equal to 100, at which
    point the interval is cancelled. *)
Theorem progress_ticks
    (st0 : State) (evs : list Event) (st : State) (randoms : list Q)
    (Hinv : timerInv st0)
    (Hdbl : isDouble (progress st0))
    (Hevs : Forall eventOk evs)
    (Hrun : run evs st0 = Some st)
    (Hrandoms : Forall randomOk randoms) :
  timerInv initialState ∧ isDouble (progress initialState) ∧
  nonDecreasing (progress st :: progressTrace randoms st) ∧
  Forall inRange (progress st :: progressTrace randoms st) ∧
  (progressTrace randoms st ≠ [] → step st = processing) ∧
  (∀ random st',
     randomOk random → dispatch (IntervalTick random) st = Some st' →
     step st = processing ∧ step st' = processing ∧
     progress st' =
       Qmin 100 (round64 (progress st + round64 (random * 18))) ∧
     (0 <= round64 (random * 18))%Q ∧ (round64 (random * 18) <= 18)%Q ∧
     (progress st <= progress st')%Q ∧
     (progress st' <= round64 (progress st + 18))%Q ∧
     (progress st' - progress st < 18 + tickSlack)%Q ∧
     (progress st' <= 100)%Q ∧
     (pendingSummary st' ≠ pendingSummary st →
      progress st' = 100%Q ∧ timer st' = false ∧
      pendingSummary st' = S (pendingSummary st)) ∧
     (progress st' = 100%Q → pendingSummary st' = S (pendingSummary st))).
Proof.
  pose proof (run_invariant_ok
                (fun s => timerInv s ∧ isDouble (progress s))
                dispatch_doubleInv evs st0 st Hevs Hrun (conj Hinv Hdbl))
    as [[Hp Ht] Hd].
  destruct (progressTrace_spec randoms Hrandoms st Hp Hd) as [Hnd Hall].
  split; [apply timerInv_initial|]. split; [apply isDouble_0|].
  split; [exact Hnd|]. split; [constructor; assumption|]. split.
  - destruct randoms as [|random rest]; simpl; [congruence|].
    destruct (timer st); [auto | congruence].
  - intros random st' Hr Hdis. simpl in Hdis.
    destruct (timer st) eqn:Htimer; [|discriminate]. injection Hdis as <-.
    destruct (nextProgress_bounds _ _ Hp Hr) as [[_ H100] Hup].
    pose proof (nextProgress_ge _ _ Hp Hd Hr) as Hle.
    destruct (increment_bounds random Hr) as [Hi0 Hi18].
    destruct (tick_frame random st) as (_ & _ & _ & Hstep).
    rewrite Hstep, tick_progress.
    split; [auto|]. split; [auto|]. split; [reflexivity|].
    split; [exact Hi0|]. split; [exact Hi18|]. split; [exact Hle|].
    split; [exact Hup|]. split.
    { destruct (tick_error (progress st) random (proj1 Hp) (proj2 Hp) Hr)
        as [Herr _].
      destruct Hr as [_ Hr1].
      destruct (nextProgress_cases (progress st) random)
        as [[Hge ->] | (_ & -> & _)]; lra. }
    split; [exact H100|].
    destruct (tick_schedule random st)
      as [(Hfull & Hoff & Hs) | (Hn & _ & Hs)];
      rewrite tick_progress in *; split; try congruence; auto.
Qed.

Lemma randomOk_half : randomOk (1 # 2).
Proof. split; [discriminate | reflexivity]. Defined.

Lemma randomOk_high : randomOk (17 # 18).
Proof. split; [discriminate | reflexivity]. Defined.

Lemma randomOk_sixteenths : randomOk (15 # 16).
Proof. split; [discriminate | reflexivity]. Defined.

Lemma progress_ticks_witness :
  let st := mkState (Some apk) false ["mobsf"] processing 9 true 0 in
  let randoms := [15 # 16; 15 # 16; 15 # 16; 15 # 16; 15 # 16; 15 # 16; 1 # 2] in
  timerInv initialState ∧ isDouble (progress initialState) ∧
  nonDecreasing (progress st :: progressTrace randoms st) ∧
  Forall inRange (progress st :: progressTrace randoms st) ∧
  (progressTrace randoms st ≠ [] → step st = processing) ∧
  (∀ random st',
     randomOk random → dispatch (IntervalTick random) st = Some st' →
     step st = processing ∧ step st' = processing ∧
     progress st' =
       Qmin 100 (round64 (progress st + round64 (random * 18))) ∧
     (0 <= round64 (random * 18))%Q ∧ (round64 (random * 18) <= 18)%Q ∧
     (progress st <= progress st')%Q ∧
     (progress st' <= round64 (progress st + 18))%Q ∧
     (progress st' - progress st < 18 + tickSlack)%Q ∧
     (progress st' <= 100)%Q ∧
     (pendingSummary st' ≠ pendingSummary st →
      progress st' = 100%Q ∧ timer st' = false ∧
      pendingSummary st' = S (pendingSummary st)) ∧
     (progress st' = 100%Q → pendingSummary st' = S (pendingSummary st))).
Proof.
  intros st randoms.
  apply (progress_ticks initialState
           [FileChange (Some [apk]); StartAnalysis; IntervalTick (1 # 2)]
           st randoms).
  - apply timerInv_initial.
  - apply isDouble_0.
  - repeat constructor; apply randomOk_half.
  - vm_compute. reflexivity.
  - repeat constructor;
      first [apply randomOk_sixteenths | apply randomOk_half].
Defined.

(** Six draws of 17/18 complete the run; the seventh tick is never served
    because the interval was cleared. *)
Example progress_run_to_completion :
  Qred <$>
    progressTrace [17 # 18; 17 # 18; 17 # 18; 17 # 18; 17 # 18; 17 # 18; 1 # 2]
      (mkState (Some apk) false ["mobsf"] processing 0 true 0) =
  [17; 34; 51; 68; 85; 100]%Q.
Proof. vm_compute. reflexivity. Qed.

(** Binary64 sums differ from exact ones: a draw of 2^-55 after a draw
    of 1/2 leaves [progress] at 9, and the decimal 0.1 is not a
    binary64 number. *)
Example rounding_is_visible :
  progressTrace [1 # 2; 1 # 36028797018963968]
    (mkState (Some apk) false ["mobsf"] processing 0 true 0) = [9; 9]%Q ∧
  round64 (1 # 10) = (3602879701896397 # 36028797018963968)%Q.
Proof. vm_compute. split; reflexivity. Qed.

(** Ten draws of 1/2, three of 2^-52 and one of 0x1.1c71c71c71c6cp-1 add
    up to 100 + 2^-51 exactly, but in binary64 the run stops one
    spacing short of 100 with the interval still live; and from 91 a
    draw of 1/2 - 2^-54 completes the run although the exact sum is
    below 100. *)
Example rounding_near_100 :
  run (ticks [1 # 2; 1 # 2; 1 # 2; 1 # 2; 1 # 2; 1 # 2; 1 # 2; 1 # 2; 1 # 2;
              1 # 2; 1 # 4503599627370496; 1 # 4503599627370496;
              1 # 4503599627370496; 5003999585967212 # 9007199254740992]%Q)
      (mkState (Some apk) false ["mobsf"] processing 0 true 0) =
    Some (mkState (Some apk) false ["mobsf"] processing
                  (7036874417766399 # 70368744177664) true 0) ∧
  run (ticks [(1 # 2) - (1 # 18014398509481984)]%Q)
      (mkState (Some apk) false ["mobsf"] processing 91 true 0) =
    Some (mkState (Some apk) false ["mobsf"] processing 100 false 1).
Proof. vm_compute. split; reflexivity. Qed.

(** ** Reset and the two timers *)

(** What reset does cancel: after [resetWorkflow] in a state satisfying
    [timerInv] the interval is dead, so no tick can be served; and when
    no delayed transition was pending, no timer callback of either kind
    is left. *)
Lemma resetWorkflow_cancels_interval (st : State) (random : Q) :
  timerInv st →
  dispatch (IntervalTick random) (resetWorkflow st) = None ∧
  (pendingSummary st = 0%nat → dispatch TimeoutFire (resetWorkflow st) = None).
Proof.
  intros [_ Ht]. unfold resetWorkflow.
  destruct (setStep_leave_processing idle (setProgress 0 st)) as [_ Hoff];
    [discriminate|].
  destruct (setStep_frame idle (setProgress 0 st)) as (_ & _ & _ & Hpend).
  simpl. rewrite Hpend. simpl.
  destruct (timer (setStep idle (setProgress 0 st))) eqn:Htimer.
  - destruct (Hoff eq_refl) as [Hon Hne]. simpl in Hon, Hne.
    specialize (Ht Hon). contradiction.
  - split; [reflexivity|]. intros ->. reflexivity.
Qed.

(** What reset does not cancel: a delayed transition that is pending
    survives [resetWorkflow], and its callback then moves the phase to
    [summary]. *)
Lemma resetWorkflow_keeps_timeout (st : State) (n : nat) :
  pendingSummary st = S n →
  ∃ st', run [ResetWorkflow; TimeoutFire] st = Some st' ∧
         step st' = summary ∧ progress st' = 0%Q.
Proof.
  intros Hpend. simpl. unfold resetWorkflow.
  destruct (setStep_frame idle (setProgress 0 st)) as (_ & _ & _ & Hp).
  simpl in Hp. rewrite Hp, Hpend.
  eexists. split; [reflexivity|]. unfold timeoutCallback.
  rewrite setStep_step. split; [reflexivity|].
  destruct (setStep_leave_processing summary
    (mkState (file (setStep idle (setProgress 0 st)))
             (dialogOpen (setStep idle (setProgress 0 st)))
             (selectedOptions (setStep idle (setProgress 0 st)))
             (step (setStep idle (setProgress 0 st)))
             (progress (setStep idle (setProgress 0 st)))
             (timer (setStep idle (setProgress 0 st))) n)) as [Hq _];
    [discriminate|].
  rewrite Hq. simpl.
  destruct (setStep_leave_processing idle (setProgress 0 st)) as [Hq' _];
    [discriminate|].
  rewrite Hq'. reflexivity.
Qed.

(** C1 (fails on the code): a file is chosen, the analysis is started
    and six ticks bring [progress] to 100, which schedules the delayed
    transition and stops the interval.  The user then cancels: the
    phase is [idle] with [progress = 0], the interval is dead, but the
    delayed transition is still pending, and when its callback runs the
    phase becomes [summary] although no analysis is in progress. *)
Theorem reset_does_not_cancel_delayed_transition :
  run completedRun initialState =
    Some (mkState (Some apk) false ["mobsf"] processing 100 false 1) ∧
  run (completedRun ++ [ResetWorkflow]) initialState =
    Some (mkState (Some apk) false ["mobsf"] idle 0 false 1) ∧
  run (completedRun ++ [ResetWorkflow; TimeoutFire]) initialState =
    Some (mkState (Some apk) false ["mobsf"] summary 0 false 0) ∧
  Forall eventOk (completedRun ++ [ResetWorkflow; TimeoutFire]).
Proof.
  repeat split; try reflexivity.
  repeat constructor; apply randomOk_high.
Qed.

Lemma renderedSummary_constant_witness :
  let st1' := mkState (Some apk) false ["mobsf"] summary 100 false 0 in
  let st2' := mkState (Some (mkFile "game.ipa" 7)) false
                      ["mobsf"; "frida"; "drozer"] summary 100 false 0 in
  renderedSummary st1' = Some summaryTemplate ∧
  renderedSummary st1' = renderedSummary st2' ∧
  summaryData st1' = summaryData st2' ∧
  (∀ st, step st ≠ summary → renderedSummary st = None).
Proof.
  intros st1' st2'.
  apply (renderedSummary_constant
           initialState initialState
           (completedRun ++ [TimeoutFire])
           ([FileChange (Some [mkFile "game.ipa" 7]); ToggleOption "frida";
             ToggleOption "drozer"; StartAnalysis] ++ sixTicks ++ [TimeoutFire])
           st1' st2'); reflexivity.
Defined.

(** * Further properties of the controller *)

(** ** Toggling scanners *)

Lemma occurrences_filter_other (optionId : string) (l : list string) :
  occurrences optionId (filter (fun id => id ≠ optionId) l) = 0%nat.
Proof.
  unfold occurrences. rewrite list_filter_filter.
  induction l as [|y l IH]; [reflexivity|].
  rewrite filter_cons_False by tauto. exact IH.
Qed.

Lemma occurrences_absent (optionId : string) (l : list string) :
  optionId ∉ l → occurrences optionId l = 0%nat.
Proof.
  unfold occurrences. induction l as [|y l IH]; intros Hnotin; [reflexivity|].
  apply not_elem_of_cons in Hnotin as [Hy Hl].
  rewrite filter_cons_False by congruence. auto.
Qed.

Lemma occurrences_app (optionId : string) (l k : list string) :
  occurrences optionId (l ++ k) =
  (occurrences optionId l + occurrences optionId k)%nat.
Proof. unfold occurrences. rewrite filter_app. apply length_app. Qed.

(** X1: toggling an id other than the required one switches that id and
    no other: afterwards it is selected exactly when it was not before,
    every other id is selected exactly when it was before, and the id
    occurs once if it was added and not at all if it was removed (a
    removal drops every copy). *)
Theorem toggleOption_flips (optionId x : string) (st : State)
    (Hopt : optionId ≠ "mobsf") :
  let st' := toggleOption optionId st in
  (optionId ∈ selectedOptions st' ↔ optionId ∉ selectedOptions st) ∧
  (x ≠ optionId → x ∈ selectedOptions st' ↔ x ∈ selectedOptions st) ∧
  occurrences optionId (selectedOptions st') =
    (if decide (optionId ∈ selectedOptions st) then 0 else 1)%nat.
Proof.
  simpl. rewrite toggleOption_selected.
  destruct (decide (optionId = "mobsf")) as [|_]; [contradiction|].
  split; [apply toggled_flips|]. split; [intros Hx; apply toggled_elem_of, Hx|].
  unfold toggled. destruct (decide (optionId ∈ selectedOptions st)) as [Hin|Hout].
  - apply occurrences_filter_other.
  - rewrite occurrences_app, occurrences_absent by assumption.
    unfold occurrences. rewrite filter_cons_True by reflexivity. reflexivity.
Qed.

Lemma toggleOption_flips_witness :
  let st := mkState None true ["frida"; "mobsf"; "frida"] idle 0 false 0 in
  let st' := toggleOption "frida" st in
  ("frida" ∈ selectedOptions st' ↔ "frida" ∉ selectedOptions st) ∧
  ("mobsf" ≠ "frida" →
   "mobsf" ∈ selectedOptions st' ↔ "mobsf" ∈ selectedOptions st) ∧
  occurrences "frida" (selectedOptions st') =
    (if decide ("frida" ∈ selectedOptions st) then 0 else 1)%nat.
Proof.
  intros st. apply (toggleOption_flips "frida" "mobsf" st). discriminate.
Defined.





Example toggle_order_visible :
  selectedOptions (toggleOption "drozer" (toggleOption "frida" initialState)) =
    ["mobsf"; "frida"; "drozer"] ∧
  selectedOptions (toggleOption "frida" (toggleOption "drozer" initialState)) =
    ["mobsf"; "drozer"; "frida"].
Proof. split; reflexivity. Qed.

(** ** The selected file *)

Lemma tick_file (random : Q) (st : State) : file (tick random st) = file st.
Proof. apply tick_frame. Qed.

Lemma setStep_file (s : WorkflowStep) (st : State) :
  file (setStep s st) = file st.
Proof. apply setStep_frame. Qed.

Lemma dispatch_file (ev : Event) (st st' : State) :
  dispatch ev st = Some st' → file st' = chooseFile (file st) ev.
Proof.
  destruct ev as [files|b|optionId| | |random|]; simpl; intros Hd.
  - injection Hd as <-. unfold handleFileChange.
    destruct (firstFile files); reflexivity.
  - injection Hd as <-. reflexivity.
  - injection Hd as <-. apply toggleOption_frame.
  - injection Hd as <-. unfold startAnalysis.
    destruct (negb (analysisReady st)); [reflexivity|].
    rewrite setStep_file. reflexivity.
  - injection Hd as <-. unfold resetWorkflow. rewrite setStep_file. reflexivity.
  - destruct (timer st); [|discriminate]. injection Hd as <-. apply tick_file.
  - destruct (pendingSummary st) as [|n]; [discriminate|].
    injection Hd as <-. unfold timeoutCallback. rewrite setStep_file. reflexivity.
Qed.

Lemma run_file (evs : list Event) :
  ∀ st st', run evs st = Some st' → file st' = foldl chooseFile (file st) evs.
Proof.
  induction evs as [|ev evs IH]; simpl; intros st st' Hrun.
  - injection Hrun as <-. reflexivity.
  - destruct (dispatch ev st) as [st1|] eqn:Hd; [|discriminate].
    rewrite (IH _ _ Hrun), (dispatch_file _ _ _ Hd). reflexivity.
Qed.

Lemma foldl_chooseFile (evs : list Event) :
  ∀ acc, foldl chooseFile acc evs =
         match foldl chooseFile None evs with Some f => Some f | None => acc end.
Proof.
  induction evs as [|ev evs IH]; intros acc; simpl; [reflexivity|].
  rewrite (IH (chooseFile acc ev)), (IH (chooseFile None ev)).
  destruct (foldl chooseFile None evs) as [f|]; [reflexivity|].
  destruct ev as [files| | | | | |]; simpl; try reflexivity.
  destruct (firstFile files); reflexivity.
Qed.

(** X3: the selected file is decided by file changes alone, the last
    one winning: after any run of events it is the first file of the
    last change event that carried one, and the file held before the
    run when there was none.  In particular no event (no reset, no
    cancelled picker, no finished analysis) ever clears a selected
    file. *)
Theorem file_last_change_wins (evs : list Event) (st st' : State)
    (Hrun : run evs st = Some st') :
  file st' = match lastChosen evs with Some f => Some f | None => file st end ∧
  (is_Some (file st) → is_Some (file st')).
Proof.
  assert (Hfile := run_file evs st st' Hrun).
  rewrite foldl_chooseFile in Hfile. fold (lastChosen evs) in Hfile.
  split; [exact Hfile|]. rewrite Hfile.
  destruct (lastChosen evs) as [f|]; intros Hsome; [eexists; reflexivity | exact Hsome].
Qed.

Lemma file_last_change_wins_witness :
  let evs := [FileChange (Some [apk; mkFile "other.apk" 3]); StartAnalysis;
              FileChange (Some []); ResetWorkflow; FileChange None] in
  let st' := mkState (Some apk) false ["mobsf"] idle 0 false 0 in
  file st' = match lastChosen evs with
             | Some f => Some f
             | None => file initialState
             end ∧
  (is_Some (file initialState) → is_Some (file st')).
Proof.
  intros evs st'. apply (file_last_change_wins evs initialState st').
  reflexivity.
Defined.

(** ** Readiness *)

(** X4: as the required scanner is never unselected, the scanner list
    is never empty, so readiness only depends on the file: in every
    state reached from a state whose list holds the required id (such
    as the initial one), [analysisReady] is true exactly when a file is
    selected, and the Run Analysis button is disabled exactly when the
    Analyze button is. *)
Theorem analysisReady_iff_file (evs : list Event) (st st' : State)
    (Hin : "mobsf" ∈ selectedOptions st)
    (Hrun : run evs st = Some st') :
  selectedOptions st' ≠ [] ∧
  (analysisReady st' = true ↔ is_Some (file st')) ∧
  runDisabled st' = analyzeDisabled st'.
Proof.
  assert (Hreq : requiredSelected st')
    by exact (run_invariant requiredSelected dispatch_requiredSelected
                evs st st' Hrun Hin).
  unfold requiredSelected, runDisabled, analyzeDisabled, analysisReady in *.
  destruct (selectedOptions st') as [|o os]; [inversion Hreq|].
  split; [discriminate|].
  destruct (file st') as [f|]; simpl; split; try reflexivity.
  - split; eauto.
  - split; [discriminate | intros [f Hf]; discriminate].
Qed.

Lemma analysisReady_iff_file_witness :
  let st' := mkState (Some apk) false ["mobsf"; "frida"] idle 0 false 0 in
  selectedOptions st' ≠ [] ∧
  (analysisReady st' = true ↔ is_Some (file st')) ∧
  runDisabled st' = analyzeDisabled st'.
Proof.
  intros st'.
  apply (analysisReady_iff_file
           [ToggleOption "frida"; FileChange (Some [apk])] initialState st').
  - left.
  - reflexivity.
Defined.

(** ** Repeated and opposite requests *)

(** The three ways [setStep] can go. *)
Lemma setStep_cases (s : WorkflowStep) (st : State) :
  (step st = s ∧ setStep s st = st) ∨
  (step st ≠ s ∧ s = processing ∧
   setStep s st =
   mkState (file st) (dialogOpen st) (selectedOptions st) processing 0 true
           (pendingSummary st)) ∨
  (step st ≠ s ∧ s ≠ processing ∧
   setStep s st =
   mkState (file st) (dialogOpen st) (selectedOptions st) s (progress st)
           (if decide (step st = processing) then false else timer st)
           (pendingSummary st)).
Proof.
  unfold setStep, effectBody, effectCleanup.
  destruct (decide (step st = s)) as [Heq|Hne]; [left; auto | right].
  destruct (decide (s = processing)) as [->|Hs]; [left | right];
    (split; [assumption|]; split; [assumption || reflexivity|]);
    destruct (decide (step st = processing)) as [Hp|Hp]; simpl;
    repeat case_decide; simpl in *; try congruence; reflexivity.
Qed.

(** X5: a request repeated at once changes nothing more:
    [startAnalysis], [resetWorkflow] and [handleFileChange] with the
    same event are idempotent.  In particular a start request made
    while the analysis is already processing does not reset [progress]
    and does not restart the interval; it only closes the dialog. *)
Theorem requests_idempotent (st : State) (files : option (list File)) :
  startAnalysis (startAnalysis st) = startAnalysis st ∧
  resetWorkflow (resetWorkflow st) = resetWorkflow st ∧
  handleFileChange files (handleFileChange files st) =
    handleFileChange files st ∧
  (step st = processing → analysisReady st = true →
   startAnalysis st = setDialogOpen false st).
Proof.
  split; [|split; [|split]].
  - unfold startAnalysis at 2 3.
    destruct (analysisReady st) eqn:Hready; simpl.
    + set (st1 := setStep processing (setDialogOpen false st)).
      assert (Hstep : step st1 = processing) by apply setStep_step.
      destruct (setStep_frame processing (setDialogOpen false st))
        as (Hf & Hd & Hs & _). fold st1 in Hf, Hd, Hs. simpl in Hf, Hd, Hs.
      unfold startAnalysis.
      assert (Hready1 : analysisReady st1 = true)
        by (unfold analysisReady in *; rewrite Hf, Hs; exact Hready).
      rewrite Hready1. simpl. unfold setStep.
      destruct (decide (step (setDialogOpen false st1) = processing))
        as [_|Hne]; [|simpl in Hne; contradiction].
      destruct st1; simpl in *; subst; reflexivity.
    + unfold startAnalysis. rewrite Hready. reflexivity.
  - unfold resetWorkflow.
    set (st1 := setStep idle (setProgress 0 st)).
    assert (Hstep : step st1 = idle) by apply setStep_step.
    destruct (setStep_leave_processing idle (setProgress 0 st)) as [Hp _];
      [discriminate|]. fold st1 in Hp. simpl in Hp.
    unfold setStep.
    destruct (decide (step (setProgress 0 st1) = idle)) as [_|Hne];
      [|simpl in Hne; contradiction].
    destruct st1; simpl in *; subst; reflexivity.
  - unfold handleFileChange. destruct (firstFile files); reflexivity.
  - intros Hstep Hready. unfold startAnalysis. rewrite Hready. simpl.
    unfold setStep. simpl. rewrite Hstep.
    destruct (decide (processing = processing)); [reflexivity | contradiction].
Qed.

(** ** Phase, interval and progress *)

(** The two ways a tick can go. *)
Lemma tick_cases (random : Q) (st : State) :
  (nextProgress (progress st) random = 100%Q ∧
   tick random st =
   mkState (file st) (dialogOpen st) (selectedOptions st) (step st) 100 false
           (S (pendingSummary st))) ∨
  ((nextProgress (progress st) random < 100)%Q ∧
   tick random st =
   mkState (file st) (dialogOpen st) (selectedOptions st) (step st)
           (nextProgress (progress st) random) (timer st) (pendingSummary st)).
Proof.
  unfold tick.
  destruct (Qle_bool 100 (nextProgress (progress st) random)) eqn:Hle.
  - left. apply nextProgress_reached in Hle. rewrite Hle. auto.
  - right. split; [|reflexivity]. apply Qnot_le_lt. intros Hge.
    apply Qle_bool_iff in Hge. congruence.
Qed.

Lemma phaseInv_initial : phaseInv initialState.
Proof. repeat split; discriminate. Qed.

Lemma setStep_phaseInv (s : WorkflowStep) (st : State) :
  s ≠ idle → phaseInv st → phaseInv (setStep s st).
Proof.
  intros Hs (Hlive & Hdone & Hidle).
  destruct (setStep_cases s st) as [[_ ->] | [(Hne & -> & ->) | (Hne & Hnp & ->)]].
  - split; [|split]; assumption.
  - split; [|split]; simpl.
    + intros _. split; [reflexivity | reflexivity].
    + discriminate.
    + discriminate.
  - split; [|split]; simpl; try congruence.
    destruct (decide (step st = processing)) as [Hp|Hp]; [discriminate|].
    intros Ht. destruct (Hlive Ht) as [Hp' _]. contradiction.
Qed.

Lemma dispatch_phaseInv (ev : Event) (st st' : State) :
  dispatch ev st = Some st' → phaseInv st → phaseInv st'.
Proof.
  destruct ev as [files|b|optionId| | |random|]; simpl; intros Hd Hinv.
  - injection Hd as <-. unfold handleFileChange.
    destruct (firstFile files); exact Hinv.
  - injection Hd as <-. exact Hinv.
  - injection Hd as <-. unfold phaseInv.
    destruct (toggleOption_frame optionId st) as (_ & _ & -> & -> & -> & ->).
    exact Hinv.
  - injection Hd as <-. unfold startAnalysis.
    destruct (negb (analysisReady st)); [exact Hinv|].
    apply setStep_phaseInv; [discriminate | exact Hinv].
  - injection Hd as <-. unfold resetWorkflow.
    destruct Hinv as (Hlive & Hdone & Hidle).
    destruct (setStep_cases idle (setProgress 0 st))
      as [[Heq ->] | [(_ & Habs & _) | (Hne & _ & ->)]]; [| discriminate |];
      simpl in *.
    + split; [|split]; simpl.
      * intros Ht. destruct (Hlive Ht). congruence.
      * congruence.
      * reflexivity.
    + split; [|split]; simpl.
      * destruct (decide (step st = processing)); [discriminate|].
        intros Ht. destruct (Hlive Ht). contradiction.
      * discriminate.
      * reflexivity.
  - destruct (timer st) eqn:Htimer; [|discriminate]. injection Hd as <-.
    destruct Hinv as (Hlive & Hdone & Hidle).
    destruct (Hlive Htimer) as [Hproc Hlt].
    destruct (tick_cases random st) as [[_ ->] | [Hnext ->]];
      (split; [|split]); simpl; try congruence.
    + intros _ _. split; [reflexivity | lia].
    + intros _. split; assumption.
  - destruct (pendingSummary st) as [|n] eqn:Hpend; [discriminate|].
    injection Hd as <-. unfold timeoutCallback.
    destruct Hinv as (Hlive & Hdone & Hidle).
    destruct (setStep_cases summary
                (mkState (file st) (dialogOpen st) (selectedOptions st)
                         (step st) (progress st) (timer st) n))
      as [[Heq ->] | [(_ & Habs & _) | (Hne & _ & ->)]]; [| discriminate |];
      simpl in *.
    + split; [|split]; simpl; try assumption. congruence.
    + split; [|split]; simpl; try congruence.
      destruct (decide (step st = processing)); [discriminate|].
      intros Ht. destruct (Hlive Ht). contradiction.
Qed.

(** X6: in every state reached from the initial one the phase, the
    interval and [progress] fit together.  The interval is live only in
    phase [processing], and then [progress] is below 100.  While the
    phase is [processing] the controller is never stuck: either the
    interval is live, or [progress] is exactly 100 and a delayed
    transition to [summary] is pending.  In phase [idle], [progress] is
    0, and the overlay is shown exactly in phase [processing]. *)
Theorem phase_timer_progress (evs : list Event) (st : State)
    (Hrun : run evs initialState = Some st) :
  (timer st = true → step st = processing ∧ (progress st < 100)%Q) ∧
  (step st = processing →
   (timer st = true ∧ (progress st < 100)%Q) ∨
   (timer st = false ∧ progress st = 100%Q ∧ (1 ≤ pendingSummary st)%nat)) ∧
  (step st = idle → progress st = 0%Q ∧ timer st = false) ∧
  (step st = summary → timer st = false) ∧
  (overlayShown st = true ↔ step st = processing).
Proof.
  pose proof (run_invariant phaseInv dispatch_phaseInv evs initialState st
                Hrun phaseInv_initial) as (Hlive & Hdone & Hidle).
  split; [exact Hlive|]. split; [|split; [|split]].
  - intros Hp. destruct (timer st) eqn:Ht.
    + left. split; [reflexivity|]. apply Hlive. reflexivity.
    + right. split; [reflexivity|]. apply Hdone; auto.
  - intros Hi. split; [auto|]. destruct (timer st) eqn:Ht; [|reflexivity].
    destruct (Hlive eq_refl). congruence.
  - intros Hs. destruct (timer st) eqn:Ht; [|reflexivity].
    destruct (Hlive eq_refl). congruence.
  - unfold overlayShown. apply bool_decide_eq_true.
Qed.

Lemma phase_timer_progress_witness :
  let st := mkState (Some apk) false ["mobsf"] processing 100 false 1 in
  (timer st = true → step st = processing ∧ (progress st < 100)%Q) ∧
  (step st = processing →
   (timer st = true ∧ (progress st < 100)%Q) ∨
   (timer st = false ∧ progress st = 100%Q ∧ (1 ≤ pendingSummary st)%nat)) ∧
  (step st = idle → progress st = 0%Q ∧ timer st = false) ∧
  (step st = summary → timer st = false) ∧
  (overlayShown st = true ↔ step st = processing).
Proof.
  intros st. apply (phase_timer_progress completedRun st). reflexivity.
Defined.

Lemma run_invariant_when (E : Event → Prop) (P : State → Prop) :
  (∀ ev st st', E ev → dispatch ev st = Some st' → P st → P st') →
  ∀ evs st st', Forall E evs → run evs st = Some st' → P st → P st'.
Proof.
  intros Hstep evs. induction evs as [|ev evs IH]; simpl;
    intros st st' Hok Hrun HP.
  - injection Hrun as <-. exact HP.
  - destruct (dispatch ev st) as [st1|] eqn:Hd; [|discriminate].
    apply Forall_cons in Hok as [Hev Hevs]. eapply IH; eauto.
Qed.

Lemma resetFreeInv_initial : resetFreeInv initialState.
Proof. repeat split; simpl; try discriminate; lia. Qed.

Lemma dispatch_resetFreeInv (ev : Event) (st st' : State) :
  ¬ isReset ev → dispatch ev st = Some st' →
  resetFreeInv st → resetFreeInv st'.
Proof.
  destruct ev as [files|b|optionId| | |random|]; simpl; intros Hnr Hd Hinv.
  - injection Hd as <-. unfold handleFileChange.
    destruct (firstFile files); exact Hinv.
  - injection Hd as <-. exact Hinv.
  - injection Hd as <-. unfold resetFreeInv.
    destruct (toggleOption_frame optionId st) as (_ & _ & -> & -> & -> & ->).
    exact Hinv.
  - injection Hd as <-. unfold startAnalysis.
    destruct (negb (analysisReady st)); [exact Hinv|].
    destruct Hinv as (Hle & Hone & Hsum & Hlive).
    destruct (setStep_cases processing (setDialogOpen false st))
      as [[_ ->] | [(Hne & _ & ->) | (_ & Habs & _)]]; [| | contradiction];
      simpl in *.
    + repeat split; simpl; try apply Hone; auto.
    + split; [exact Hle|]. split; [|split]; simpl.
      * intros H1. destruct (Hone H1). contradiction.
      * discriminate.
      * reflexivity.
  - exfalso. apply Hnr. exact I.
  - destruct (timer st) eqn:Htimer; [|discriminate]. injection Hd as <-.
    destruct Hinv as (Hle & Hone & Hsum & Hlive).
    assert (Hproc : step st = processing) by (apply Hlive; exact Htimer).
    assert (Hzero : pendingSummary st = 0%nat).
    { destruct (pendingSummary st) as [|[|n]] eqn:Hp; [reflexivity| |lia].
      destruct (Hone eq_refl) as (_ & _ & Hoff). congruence. }
    destruct (tick_cases random st) as [[_ ->] | [Hnext ->]];
      (split; [|split; [|split]]); simpl; try congruence; try lia.
    intros _. auto.
  - destruct (pendingSummary st) as [|n] eqn:Hpend; [discriminate|].
    injection Hd as <-. unfold timeoutCallback.
    destruct Hinv as (Hle & Hone & Hsum & Hlive).
    assert (Hn : n = 0%nat) by lia. subst n.
    destruct (Hone Hpend) as (Hproc & H100 & Hoff).
    destruct (setStep_cases summary
                (mkState (file st) (dialogOpen st) (selectedOptions st)
                         (step st) (progress st) (timer st) 0))
      as [[Heq _] | [(_ & Habs & _) | (Hne & _ & ->)]]; simpl in *;
      [congruence | discriminate |].
    split; [simpl; lia|]. split; [|split]; simpl.
    + discriminate.
    + intros _. exact H100.
    + destruct (decide (step st = processing)); [discriminate | contradiction].
Qed.

(** X7: as long as no reset happens the delayed transition is well
    behaved.  In every state reached from the initial one by events
    other than resets, at most one delayed transition is pending; while
    one is pending the phase is [processing] with [progress] exactly
    100 and the interval stopped; and in phase [summary] [progress] is
    exactly 100, so the report is shown only after a completed run. *)
Theorem reset_free_summary (evs : list Event) (st : State)
    (Hnoreset : Forall (fun ev => ¬ isReset ev) evs)
    (Hrun : run evs initialState = Some st) :
  (pendingSummary st ≤ 1)%nat ∧
  (pendingSummary st = 1%nat →
   step st = processing ∧ progress st = 100%Q ∧ timer st = false) ∧
  (step st = summary → progress st = 100%Q).
Proof.
  pose proof (run_invariant_when (fun ev => ¬ isReset ev) resetFreeInv
                dispatch_resetFreeInv evs initialState st Hnoreset Hrun
                resetFreeInv_initial) as (Hle & Hone & Hsum & _).
  auto.
Qed.

Lemma reset_free_summary_witness :
  let st := mkState (Some apk) false ["mobsf"] summary 100 false 0 in
  (pendingSummary st ≤ 1)%nat ∧
  (pendingSummary st = 1%nat →
   step st = processing ∧ progress st = 100%Q ∧ timer st = false) ∧
  (step st = summary → progress st = 100%Q).
Proof.
  intros st. apply (reset_free_summary (completedRun ++ [TimeoutFire]) st).
  - repeat constructor; simpl; tauto.
  - reflexivity.
Defined.

(** X8: cancelling undoes starting.  In every idle state reached from
    the initial one in which a file is selected, a start request is
    accepted, and a reset right after it leads back to the state before
    the start, except that the dialog is closed. *)
Theorem start_then_reset (evs : list Event) (st : State) (f : File)
    (Hrun : run evs initialState = Some st)
    (Hidle : step st = idle)
    (Hfile : file st = Some f) :
  step (startAnalysis st) = processing ∧
  resetWorkflow (startAnalysis st) = setDialogOpen false st ∧
  run [StartAnalysis; ResetWorkflow] st = Some (setDialogOpen false st).
Proof.
  pose proof (run_invariant phaseInv dispatch_phaseInv evs initialState st
                Hrun phaseInv_initial) as (Hlive & _ & Hzero).
  assert (Hreq : requiredSelected st).
  { apply (run_invariant requiredSelected dispatch_requiredSelected
             evs initialState st Hrun). left. }
  assert (Hready : analysisReady st = true).
  { apply analysisReady_true. split; [eauto|].
    intros Hnil. unfold requiredSelected in Hreq. rewrite Hnil in Hreq.
    inversion Hreq. }
  assert (Hoff : timer st = false).
  { destruct (timer st); [|reflexivity].
    destruct (Hlive eq_refl). congruence. }
  specialize (Hzero Hidle).
  assert (Hround : resetWorkflow (startAnalysis st) = setDialogOpen false st).
  { unfold startAnalysis. rewrite Hready. simpl.
    unfold resetWorkflow, setStep, effectBody, effectCleanup.
    destruct st as [fl d sel s p t n]; simpl in *; subst.
    reflexivity. }
  split; [|split].
  - unfold startAnalysis. rewrite Hready. simpl. apply setStep_step.
  - exact Hround.
  - simpl. rewrite Hround. reflexivity.
Qed.

Lemma start_then_reset_witness :
  let st := mkState (Some apk) true ["mobsf"; "frida"] idle 0 false 0 in
  step (startAnalysis st) = processing ∧
  resetWorkflow (startAnalysis st) = setDialogOpen false st ∧
  run [StartAnalysis; ResetWorkflow] st = Some (setDialogOpen false st).
Proof.
  intros st.
  apply (start_then_reset
           [FileChange (Some [apk]); OpenChange true; ToggleOption "frida"]
           st apk); reflexivity.
Defined.

(** ** How ticks add up *)

Lemma total_nonneg (randoms : list Q) :
  Forall randomOk randoms → (0 <= total randoms)%Q.
Proof.
  induction 1 as [|random randoms [H0 _] _ IH]; simpl; [lra|].
  unfold total in *. simpl. lra.
Qed.

Lemma inject_length_cons (A : Type) (x : A) (l : list A) :
  (inject_Z (Z.of_nat (length (x :: l))) ==
   1 + inject_Z (Z.of_nat (length l)))%Q.
Proof.
  simpl length. rewrite Nat2Z.inj_succ, <- Z.add_1_l, inject_Z_plus.
  reflexivity.
Qed.

Lemma inject_length_nonneg (A : Type) (l : list A) :
  (0 <= inject_Z (Z.of_nat (length l)))%Q.
Proof. change 0%Q with (inject_Z 0). rewrite <- Zle_Qle. lia. Qed.

Lemma run_app (evs1 evs2 : list Event) (st st1 : State) :
  run evs1 st = Some st1 → run (evs1 ++ evs2) st = run evs2 st1.
Proof.
  revert st. induction evs1 as [|ev evs1 IH]; simpl; intros st Hrun.
  - injection Hrun as <-. reflexivity.
  - destruct (dispatch ev st) as [st'|]; [auto | discriminate].
Qed.

Lemma progressTrace_dead (randoms : list Q) (st : State) :
  timer st = false → progressTrace randoms st = [].
Proof. intros Ht. destruct randoms; simpl; [|rewrite Ht]; reflexivity. Qed.

Lemma progressTrace_served (randoms : list Q) :
  ∀ st st', run (ticks randoms) st = Some st' →
            length (progressTrace randoms st) = length randoms.
Proof.
  induction randoms as [|random randoms IH]; intros st st' Hrun;
    [reflexivity|].
  simpl in *. destruct (timer st); [|discriminate].
  simpl. f_equal. eapply IH. exact Hrun.
Qed.

Lemma timeout_to_summary (st : State) :
  (1 ≤ pendingSummary st)%nat →
  ∃ st', run [TimeoutFire] st = Some st' ∧ step st' = summary.
Proof.
  intros Hpend. simpl. destruct (pendingSummary st) as [|n]; [lia|].
  eexists. split; [reflexivity|]. apply setStep_step.
Qed.

Lemma run_ticks_below (randoms : list Q) :
  Forall randomOk randoms →
  ∀ st, timer st = true → (0 <= progress st)%Q →
    (progress st + 18 * total randoms +
     inject_Z (Z.of_nat (length randoms)) * tickSlack < 100)%Q →
    ∃ st', run (ticks randoms) st = Some st' ∧
           (progress st' - (progress st + 18 * total randoms) <=
            inject_Z (Z.of_nat (length randoms)) * tickSlack)%Q ∧
           (progress st + 18 * total randoms - progress st' <=
            inject_Z (Z.of_nat (length randoms)) * tickSlack)%Q ∧
           timer st' = true ∧
           pendingSummary st' = pendingSummary st ∧
           step st' = step st.
Proof.
  assert (Heps : (0 < tickSlack)%Q) by reflexivity.
  induction 1 as [|random randoms Hr Hrs IH]; intros st Ht H0 Hsum.
  - exists st. unfold total. cbn [foldr length].
    change (inject_Z (Z.of_nat 0)) with 0%Q.
    split; [reflexivity|]. split; [lra|]. split; [lra|]. auto.
  - pose proof (total_nonneg randoms Hrs) as Hnn.
    pose proof (inject_length_nonneg _ randoms) as Hlen0.
    pose proof (inject_length_cons _ random randoms) as Hlen.
    assert (Htot : (total (random :: randoms) == random + total randoms)%Q)
      by reflexivity.
    set (n := inject_Z (Z.of_nat (length randoms))) in *.
    set (n' := inject_Z (Z.of_nat (length (random :: randoms)))) in *.
    assert (Hne : (0 <= n * tickSlack)%Q)
      by (apply Qmult_le_0_compat; lra).
    assert (Hn' : (n' * tickSlack == tickSlack + n * tickSlack)%Q)
      by (rewrite Hlen; ring).
    assert (Hro : randomOk random) by exact Hr.
    destruct Hr as [Hr0 Hr1].
    assert (H100 : (progress st < 100)%Q) by lra.
    destruct (tick_error (progress st) random H0 (Qlt_le_weak _ _ H100) Hro)
      as [He1 He2].
    destruct (increment_bounds random Hro) as [Hi0 _].
    assert (Hz0 : (0 <= round64 (progress st + round64 (random * 18)))%Q)
      by (apply round64_nonneg; lra).
    destruct (nextProgress_cases (progress st) random)
      as [[Hge _] | (Hlt & Hnext & _)]; [lra|].
    simpl. rewrite Ht.
    destruct (tick_cases random st) as [[Hfull _] | [_ Htick]];
      [rewrite Hfull in Hnext; lra|].
    destruct (IH (tick random st)) as (st' & Hrun & Hp1 & Hp2 & Ht' & Hn & Hs).
    + rewrite Htick. exact Ht.
    + rewrite Htick. simpl. lra.
    + rewrite Htick. simpl. fold n. lra.
    + exists st'. split; [exact Hrun|].
      rewrite Htick in Hp1, Hp2, Hn, Hs. simpl in Hp1, Hp2, Hn, Hs.
      fold n in Hp1, Hp2.
      split; [lra|]. split; [lra|]. auto.
Qed.

Lemma run_ticks_complete (randoms : list Q) :
  Forall randomOk randoms →
  ∀ st, timer st = true → (0 <= progress st)%Q → (progress st < 100)%Q →
    (100 + inject_Z (Z.of_nat (length randoms)) * tickSlack <=
     progress st + 18 * total randoms)%Q →
    last (progressTrace randoms st) = Some 100%Q ∧
    ∃ k st', (1 ≤ k ≤ length randoms)%nat ∧
             run (ticks (take k randoms)) st = Some st' ∧
             progress st' = 100%Q ∧ timer st' = false ∧
             pendingSummary st' = S (pendingSummary st) ∧
             step st' = step st.
Proof.
  assert (Heps : (0 < tickSlack)%Q) by reflexivity.
  induction 1 as [|random randoms Hr Hrs IH]; intros st Ht H0 Hlt Hsum.
  - unfold total in Hsum. cbn [foldr length] in Hsum.
    change (inject_Z (Z.of_nat 0)) with 0%Q in Hsum. lra.
  - pose proof (inject_length_cons _ random randoms) as Hlen.
    assert (Htot : (total (random :: randoms) == random + total randoms)%Q)
      by reflexivity.
    set (n := inject_Z (Z.of_nat (length randoms))) in *.
    set (n' := inject_Z (Z.of_nat (length (random :: randoms)))) in *.
    assert (Hn' : (n' * tickSlack == tickSlack + n * tickSlack)%Q)
      by (rewrite Hlen; ring).
    destruct (tick_error (progress st) random H0 (Qlt_le_weak _ _ Hlt) Hr)
      as [He1 He2].
    destruct (increment_bounds random Hr) as [Hi0 _].
    assert (Hz0 : (0 <= round64 (progress st + round64 (random * 18)))%Q)
      by (apply round64_nonneg; lra).
    simpl progressTrace. simpl dispatch. rewrite Ht.
    destruct (tick_cases random st) as [[Hfull Htick] | [Hbelow Htick]].
    + split.
      * rewrite progressTrace_dead by (rewrite Htick; reflexivity).
        rewrite Htick. reflexivity.
      * exists 1%nat, (tick random st). simpl. rewrite Ht, Htick. simpl.
        repeat split; lia.
    + destruct (nextProgress_cases (progress st) random)
        as [[_ Habs] | (_ & Hnext & _)]; [rewrite Habs in Hbelow; lra|].
      destruct (IH (tick random st)) as (Hlast & k & st' & Hk & Hrun & Hrest).
      * rewrite Htick. exact Ht.
      * rewrite Htick. simpl. lra.
      * rewrite Htick. exact Hbelow.
      * rewrite Htick. simpl. fold n. lra.
      * split.
        -- rewrite last_cons, Hlast. reflexivity.
        -- exists (S k), st'. simpl. rewrite Ht.
           rewrite Htick in Hrest. simpl in Hrest.
           split; [lia|]. split; [exact Hrun | exact Hrest].
Qed.

(** X9: ticks add up, to within rounding.  When the interval is live
    and the draws are too small to reach 100 (progress, plus 18 times
    their sum, plus 2^-46 for each tick, stays below 100), every one of
    the ticks is served and shows a value, the final [progress] differs
    from the initial one plus 18 times the sum of the draws by at most
    2^-46 for each tick, the interval is still live, no transition has
    been scheduled and the phase is unchanged. *)
Theorem ticks_add_up (randoms : list Q) (st : State)
    (Hrandoms : Forall randomOk randoms)
    (Hlive : timer st = true)
    (Hnonneg : (0 <= progress st)%Q)
    (Hsum : (progress st + 18 * total randoms +
             inject_Z (Z.of_nat (length randoms)) * tickSlack < 100)%Q) :
  ∃ st', run (ticks randoms) st = Some st' ∧
         length (progressTrace randoms st) = length randoms ∧
         (progress st' - (progress st + 18 * total randoms) <=
          inject_Z (Z.of_nat (length randoms)) * tickSlack)%Q ∧
         (progress st + 18 * total randoms - progress st' <=
          inject_Z (Z.of_nat (length randoms)) * tickSlack)%Q ∧
         timer st' = true ∧
         pendingSummary st' = pendingSummary st ∧
         step st' = step st.
Proof.
  destruct (run_ticks_below randoms Hrandoms st Hlive Hnonneg Hsum)
    as (st' & Hrun & Hrest).
  exists st'. split; [exact Hrun|]. split; [|exact Hrest].
  exact (progressTrace_served randoms st st' Hrun).
Qed.

Lemma ticks_add_up_witness :
  let st := mkState (Some apk) false ["mobsf"] processing 0 true 0 in
  let randoms := [1 # 2; 1 # 36028797018963968; 1 # 10; 15 # 16] in
  ∃ st', run (ticks randoms) st = Some st' ∧
         length (progressTrace randoms st) = length randoms ∧
         (progress st' - (progress st + 18 * total randoms) <=
          inject_Z (Z.of_nat (length randoms)) * tickSlack)%Q ∧
         (progress st + 18 * total randoms - progress st' <=
          inject_Z (Z.of_nat (length randoms)) * tickSlack)%Q ∧
         timer st' = true ∧
         pendingSummary st' = pendingSummary st ∧
         step st' = step st.
Proof.
  intros st randoms. apply (ticks_add_up randoms st).
  - repeat constructor; discriminate.
  - reflexivity.
  - discriminate.
  - reflexivity.
Defined.

(** X10: enough ticks finish the run.  When the interval is live,
    [progress] is in [0,100) and the draws suffice with room for the
    rounding (progress plus 18 times their sum is at least 100 plus
    2^-46 for each tick), the run completes within these draws: the
    trace of progress values ends with exactly 100, reached after some
    [k] of the ticks, at which point the interval is stopped and one
    more delayed transition is scheduled; the callback of that
    transition then leads to phase [summary]. *)
Theorem ticks_complete (randoms : list Q) (st : State)
    (Hrandoms : Forall randomOk randoms)
    (Hlive : timer st = true)
    (Hnonneg : (0 <= progress st)%Q)
    (Hbelow : (progress st < 100)%Q)
    (Hsum : (100 + inject_Z (Z.of_nat (length randoms)) * tickSlack <=
             progress st + 18 * total randoms)%Q) :
  last (progressTrace randoms st) = Some 100%Q ∧
  ∃ k st' st'', (1 ≤ k ≤ length randoms)%nat ∧
           run (ticks (take k randoms)) st = Some st' ∧
           progress st' = 100%Q ∧ timer st' = false ∧
           pendingSummary st' = S (pendingSummary st) ∧
           step st' = step st ∧
           run (ticks (take k randoms) ++ [TimeoutFire])%list st = Some st'' ∧
           step st'' = summary.
Proof.
  destruct (run_ticks_complete randoms Hrandoms st Hlive Hnonneg Hbelow Hsum)
    as (Hlast & k & st' & Hk & Hrun & Hp & Ht & Hn & Hs).
  split; [exact Hlast|].
  destruct (timeout_to_summary st') as (st'' & Hrun' & Hs'); [lia|].
  exists k, st', st''. repeat (split; [assumption|]).
  split; [|exact Hs'].
  rewrite (run_app _ _ _ _ Hrun). exact Hrun'.
Qed.

Lemma ticks_complete_witness :
  let st := mkState (Some apk) false ["mobsf"] processing 0 true 0 in
  let randoms := [15 # 16; 15 # 16; 15 # 16; 15 # 16; 15 # 16; 15 # 16;
                  1 # 2; 1 # 4] in
  last (progressTrace randoms st) = Some 100%Q ∧
  ∃ k st' st'', (1 ≤ k ≤ length randoms)%nat ∧
           run (ticks (take k randoms)) st = Some st' ∧
           progress st' = 100%Q ∧ timer st' = false ∧
           pendingSummary st' = S (pendingSummary st) ∧
           step st' = step st ∧
           run (ticks (take k randoms) ++ [TimeoutFire])%list st = Some st'' ∧
           step st'' = summary.
Proof.
  intros st randoms. apply (ticks_complete randoms st).
  - repeat constructor; discriminate.
  - reflexivity.
  - discriminate.
  - reflexivity.
  - discriminate.
Defined.

Lemma inject_18 (j : Z) :
  (inject_Z (18 * (j + 1)) == inject_Z (18 * j) + 18)%Q.
Proof.
  replace (18 * (j + 1))%Z with (18 * j + 18)%Z by lia.
  rewrite inject_Z_plus. reflexivity.
Qed.

Lemma run_ticks_bounded (randoms : list Q) :
  Forall randomOk randoms →
  ∀ (st : State) (j : Z),
    (0 <= j)%Z → (j + Z.of_nat (length randoms) <= 5)%Z →
    timer st = true → (0 <= progress st)%Q →
    (progress st <= inject_Z (18 * j))%Q →
    ∃ st', run (ticks randoms) st = Some st' ∧
           (0 <= progress st')%Q ∧
           (progress st' <=
            inject_Z (18 * (j + Z.of_nat (length randoms))))%Q ∧
           timer st' = true ∧
           pendingSummary st' = pendingSummary st.
Proof.
  induction 1 as [|random randoms Hr Hrs IH]; intros st j Hj Hlen Ht H0 Hup.
  - exists st. simpl. rewrite Z.add_0_r. auto.
  - simpl length in *. rewrite Nat2Z.inj_succ in *.
    assert (H90 : (inject_Z (18 * (j + 1)) <= 90)%Q)
      by (change 90%Q with (inject_Z 90); rewrite <- Zle_Qle; lia).
    assert (Hin : inRange (progress st)).
    { split; [exact H0|].
      assert ((inject_Z (18 * j) <= 90)%Q)
        by (change 90%Q with (inject_Z 90); rewrite <- Zle_Qle; lia).
      lra. }
    destruct (nextProgress_bounds _ _ Hin Hr) as [[Hn0 _] Hnup].
    assert (Hfix : (round64 (inject_Z (18 * (j + 1))) ==
                    inject_Z (18 * (j + 1)))%Q).
    { apply round64_integer.
      assert (H53 : (2 ^ 53 = 9007199254740992)%Z) by reflexivity.
      rewrite H53. lia. }
    assert (Hmono : (round64 (progress st + 18) <=
                     round64 (inject_Z (18 * (j + 1))))%Q).
    { apply round64_mono; [lra|]. rewrite inject_18. lra. }
    simpl. rewrite Ht.
    destruct (tick_cases random st) as [[Hfull _] | [_ Htick]];
      [rewrite Hfull in Hnup; lra|].
    destruct (IH (tick random st) (j + 1)%Z)
      as (st' & Hrun & Hp0 & Hp & Ht' & Hn); try lia.
    + rewrite Htick. exact Ht.
    + rewrite Htick. exact Hn0.
    + rewrite Htick. simpl. lra.
    + exists st'. split; [exact Hrun|]. split; [exact Hp0|].
      rewrite Htick in Hn. simpl in Hn.
      replace (j + Z.succ (Z.of_nat (length randoms)))%Z
        with (j + 1 + Z.of_nat (length randoms))%Z by lia.
      auto.
Qed.

(** X11: a run needs at least six ticks.  A tick adds less than 18, so
    from [progress] 0 with a live interval any five or fewer ticks are
    all served and leave [progress] below 100 (at most 18 for each
    tick), the interval live and no transition to [summary]
    scheduled. *)
Theorem fewer_than_six_ticks (randoms : list Q) (st : State)
    (Hrandoms : Forall randomOk randoms)
    (Hlive : timer st = true)
    (Hzero : (progress st == 0)%Q)
    (Hfew : (length randoms ≤ 5)%nat) :
  ∃ st', run (ticks randoms) st = Some st' ∧
         (progress st' <= 18 * inject_Z (Z.of_nat (length randoms)))%Q ∧
         (progress st' < 100)%Q ∧
         timer st' = true ∧
         pendingSummary st' = pendingSummary st.
Proof.
  destruct (run_ticks_bounded randoms Hrandoms st 0%Z)
    as (st' & Hrun & Hp0 & Hp & Ht & Hn); try lia; try assumption.
  - lra.
  - change (inject_Z (18 * 0)) with 0%Q. lra.
  - assert (Hmul : (inject_Z (18 * (0 + Z.of_nat (length randoms))) ==
                    18 * inject_Z (Z.of_nat (length randoms)))%Q)
      by (rewrite Z.add_0_l, inject_Z_mult; reflexivity).
    assert (H90 : (inject_Z (18 * (0 + Z.of_nat (length randoms))) <= 90)%Q)
      by (change 90%Q with (inject_Z 90); rewrite <- Zle_Qle; lia).
    exists st'. split; [exact Hrun|]. split; [lra|]. split; [lra|]. auto.
Qed.

Lemma fewer_than_six_ticks_witness :
  let st := mkState (Some apk) false ["mobsf"] processing 0 true 0 in
  let randoms := [17 # 18; 17 # 18; 17 # 18; 17 # 18; 17 # 18] in
  ∃ st', run (ticks randoms) st = Some st' ∧
         (progress st' <= 18 * inject_Z (Z.of_nat (length randoms)))%Q ∧
         (progress st' < 100)%Q ∧
         timer st' = true ∧
         pendingSummary st' = pendingSummary st.
Proof.
  intros st randoms. apply (fewer_than_six_ticks randoms st).
  - repeat constructor; discriminate.
  - reflexivity.
  - reflexivity.
  - simpl. lia.
Defined.

(** Draws whose increment is at least the integer [m] raise [progress]
    by at least [m] a tick, as integers are binary64 numbers. *)
Lemma run_ticks_reach (m : Z) (randoms : list Q) :
  (0 < m <= 18)%Z →
  Forall (fun r => randomOk r ∧ (inject_Z m <= r * 18)%Q) randoms →
  ∀ (st : State) (a : Z),
    (0 <= a)%Z → timer st = true → (progress st < 100)%Q →
    (inject_Z a <= progress st)%Q →
    (100 <= a + m * Z.of_nat (length randoms))%Z →
    ∃ k st', (1 ≤ k ≤ length randoms)%nat ∧
             run (ticks (take k randoms)) st = Some st' ∧
             progress st' = 100%Q ∧ timer st' = false ∧
             pendingSummary st' = S (pendingSummary st) ∧
             step st' = step st.
Proof.
  intros Hm. assert (H53 : (2 ^ 53 = 9007199254740992)%Z) by reflexivity.
  induction 1 as [|random randoms [Hr Hbig] Hrs IH];
    intros st a Ha Ht Hlt Hlow Hlen.
  - simpl in Hlen. exfalso.
    assert ((100 <= inject_Z a)%Q)
      by (change 100%Q with (inject_Z 100); rewrite <- Zle_Qle; lia).
    lra.
  - assert (Ha100 : (a < 100)%Z).
    { apply Z.lt_nge. intros Hc.
      assert ((100 <= inject_Z a)%Q)
        by (change 100%Q with (inject_Z 100); rewrite <- Zle_Qle; lia).
      lra. }
    assert (Ha0 : (0 <= inject_Z a)%Q)
      by (change 0%Q with (inject_Z 0); rewrite <- Zle_Qle; lia).
    assert (Hm0 : (0 <= inject_Z m)%Q)
      by (change 0%Q with (inject_Z 0); rewrite <- Zle_Qle; lia).
    assert (Hinc : (inject_Z m <= round64 (random * 18))%Q).
    { rewrite <- (round64_integer m) by (rewrite H53; lia).
      apply round64_mono; assumption. }
    assert (Hz : (inject_Z (a + m) <=
                  round64 (progress st + round64 (random * 18)))%Q).
    { rewrite <- (round64_integer (a + m)) by (rewrite H53; lia).
      apply round64_mono.
      - change 0%Q with (inject_Z 0). rewrite <- Zle_Qle. lia.
      - rewrite inject_Z_plus. lra. }
    simpl length in Hlen. rewrite Nat2Z.inj_succ in Hlen.
    destruct (tick_cases random st) as [[Hfull Htick] | [Hbelow Htick]].
    + exists 1%nat, (tick random st). simpl. rewrite Ht, Htick. simpl.
      repeat split; lia.
    + destruct (nextProgress_cases (progress st) random)
        as [[_ Habs] | (_ & Hnext & _)]; [rewrite Habs in Hbelow; lra|].
      destruct (IH (tick random st) (a + m)%Z) as (k & st' & Hk & Hrun & Hrest).
      * lia.
      * rewrite Htick. exact Ht.
      * rewrite Htick. exact Hbelow.
      * rewrite Htick. simpl. lra.
      * lia.
      * exists (S k), st'. simpl. rewrite Ht.
        rewrite Htick in Hrest. simpl in Hrest.
        split; [lia|]. split; [exact Hrun | exact Hrest].
Qed.

(** X12: a started analysis can always finish without the user.  From
    every state in phase [processing] that is reached from the initial
    state (with draws in the unit interval), some sequence of at most
    seven timer callbacks (at most six ticks, then the delayed
    transition) leads to phase [summary], where the report is shown. *)
Theorem processing_can_complete (evs : list Event) (st : State)
    (Hevs : Forall eventOk evs)
    (Hrun : run evs initialState = Some st)
    (Hproc : step st = processing) :
  ∃ evs' st',
    (length evs' ≤ 7)%nat ∧ Forall isTimerEvent evs' ∧ Forall eventOk evs' ∧
    run evs' st = Some st' ∧ step st' = summary ∧
    renderedSummary st' = Some summaryTemplate.
Proof.
  pose proof (run_invariant phaseInv dispatch_phaseInv evs initialState st
                Hrun phaseInv_initial) as (Hlive & Hdone & _).
  pose proof (run_invariant_ok timerInv dispatch_timerInv evs initialState st
                Hevs Hrun timerInv_initial) as [[Hp0 _] _].
  assert (Hshow : ∀ st', step st' = summary →
                         renderedSummary st' = Some summaryTemplate).
  { intros st' Hs. unfold renderedSummary. rewrite Hs. reflexivity. }
  destruct (timer st) eqn:Ht.
  - destruct (Hlive eq_refl) as [_ Hlt].
    set (randoms := [17 # 18; 17 # 18; 17 # 18; 17 # 18; 17 # 18; 17 # 18]%Q).
    assert (Hok : Forall randomOk randoms)
      by (repeat constructor; discriminate).
    destruct (run_ticks_reach 17 randoms) with (st := st) (a := 0%Z)
      as (k & st1 & Hk & Hrun1 & _ & _ & Hpend & _);
      try lia; try assumption.
    { repeat constructor; discriminate. }
    { simpl. lia. }
    destruct (timeout_to_summary st1) as (st' & Hrun2 & Hs); [lia|].
    exists (ticks (take k randoms) ++ [TimeoutFire])%list, st'.
    split; [|split; [|split; [|split; [|split]]]].
    + rewrite length_app. unfold ticks. rewrite length_fmap, length_take.
      simpl in *. lia.
    + apply Forall_app. split; [|repeat constructor].
      unfold ticks. apply Forall_fmap, Forall_true. intros r. exact I.
    + apply Forall_app. split; [|repeat constructor].
      unfold ticks. apply Forall_fmap. apply Forall_take. exact Hok.
    + rewrite (run_app _ _ _ _ Hrun1). exact Hrun2.
    + exact Hs.
    + apply Hshow, Hs.
  - destruct (Hdone Hproc eq_refl) as [_ Hpend].
    destruct (timeout_to_summary st Hpend) as (st' & Hrun2 & Hs).
    exists [TimeoutFire], st'.
    split; [simpl; lia|]. split; [repeat constructor|].
    split; [repeat constructor|]. split; [exact Hrun2|].
    split; [exact Hs | apply Hshow, Hs].
Qed.

Lemma processing_can_complete_witness :
  let st := mkState (Some apk) false ["mobsf"] processing 9 true 0 in
  ∃ evs' st',
    (length evs' ≤ 7)%nat ∧ Forall isTimerEvent evs' ∧ Forall eventOk evs' ∧
    run evs' st = Some st' ∧ step st' = summary ∧
    renderedSummary st' = Some summaryTemplate.
Proof.
  intros st.
  apply (processing_can_complete
           [FileChange (Some [apk]); StartAnalysis; IntervalTick (1 # 2)] st).
  - repeat constructor; apply randomOk_half.
  - reflexivity.
  - reflexivity.
Defined.

(** ** The scanner checkboxes *)

Lemma renderCheckboxes_ids (st : State) :
  optionOf <$> renderCheckboxes st = catalogIds.
Proof. reflexivity. Qed.

(** X13: the dialog always shows the required scanner locked on.  In
    every state reached from the initial one there is one checkbox per
    catalog entry, in catalog order; the checkbox of the required id is
    checked and disabled; every other checkbox is enabled and is
    checked exactly when its id is selected. *)
Theorem required_checkbox_locked (evs : list Event) (st : State)
    (cb : CheckboxProps)
    (Hrun : run evs initialState = Some st)
    (Hcb : cb ∈ renderCheckboxes st) :
  optionOf <$> renderCheckboxes st = id <$> analysisOptions ∧
  (optionOf cb = "mobsf" → checked cb = true ∧ disabled cb = true) ∧
  (optionOf cb ≠ "mobsf" →
   disabled cb = false ∧
   (checked cb = true ↔ optionOf cb ∈ selectedOptions st)).
Proof.
  assert (Hreq : requiredSelected st).
  { apply (run_invariant requiredSelected dispatch_requiredSelected
             evs initialState st Hrun). left. }
  split; [reflexivity|].
  unfold renderCheckboxes in Hcb.
  apply list_elem_of_fmap in Hcb as (option & -> & _). simpl. split.
  - intros ->. split; apply bool_decide_eq_true; [exact Hreq | reflexivity].
  - intros Hne. split; [apply bool_decide_eq_false, Hne|].
    apply bool_decide_eq_true.
Qed.

Lemma required_checkbox_locked_witness :
  let st := mkState None false ["mobsf"; "frida"] idle 0 false 0 in
  let cb := mkCheckboxProps "mobsf" true true in
  optionOf <$> renderCheckboxes st = id <$> analysisOptions ∧
  (optionOf cb = "mobsf" → checked cb = true ∧ disabled cb = true) ∧
  (optionOf cb ≠ "mobsf" →
   disabled cb = false ∧
   (checked cb = true ↔ optionOf cb ∈ selectedOptions st)).
Proof.
  intros st cb.
  apply (required_checkbox_locked [ToggleOption "frida"] st cb).
  - reflexivity.
  - left.
Defined.

Lemma dispatch_selectedOptions_of (ev : Event) (st st' : State) :
  dispatch ev st = Some st' →
  selectedOptions st' =
  match ev with
  | ToggleOption optionId =>
      if decide (optionId = "mobsf") then selectedOptions st
      else toggled optionId (selectedOptions st)
  | _ => selectedOptions st
  end.
Proof.
  destruct ev as [files|b|optionId| | |random|]; simpl; intros Hd.
  - injection Hd as <-. unfold handleFileChange.
    destruct (firstFile files); reflexivity.
  - injection Hd as <-. reflexivity.
  - injection Hd as <-. apply toggleOption_selected.
  - injection Hd as <-. unfold startAnalysis.
    destruct (negb (analysisReady st)); [reflexivity|].
    rewrite setStep_selectedOptions. reflexivity.
  - injection Hd as <-. unfold resetWorkflow.
    rewrite setStep_selectedOptions. reflexivity.
  - destruct (timer st); [|discriminate]. injection Hd as <-.
    apply tick_selectedOptions.
  - destruct (pendingSummary st) as [|n]; [discriminate|].
    injection Hd as <-. unfold timeoutCallback.
    rewrite setStep_selectedOptions. reflexivity.
Qed.

Lemma dispatch_withinCatalog (ev : Event) (st st' : State) :
  pageEvent ev → dispatch ev st = Some st' →
  withinCatalog st → withinCatalog st'.
Proof.
  unfold withinCatalog. intros Hpage Hd Hsub o Ho.
  rewrite (dispatch_selectedOptions_of _ _ _ Hd) in Ho.
  destruct ev as [files|b|optionId| | |random|]; auto.
  destruct (decide (optionId = "mobsf")); [auto|].
  destruct (decide (o = optionId)) as [->|Hne]; [exact Hpage|].
  apply Hsub. eapply toggled_elem_of; eauto.
Qed.

(** X14: a selection made on the page stays within the catalog.  When
    the toggles of a run come from the rendered checkboxes, a
    duplicate-free scanner list that held only catalog ids still holds
    only catalog ids afterwards, it has at most five entries, and each
    selected id is shown by a checked checkbox. *)
Theorem selection_within_catalog (evs : list Event) (st st' : State)
    (optionId : string)
    (Hpage : Forall pageEvent evs)
    (Hsub : withinCatalog st)
    (Hnd : NoDup (selectedOptions st))
    (Hrun : run evs st = Some st')
    (Hsel : optionId ∈ selectedOptions st') :
  optionId ∈ catalogIds ∧
  (length (selectedOptions st') ≤ 5)%nat ∧
  mkCheckboxProps optionId true (bool_decide (optionId = "mobsf"))
    ∈ renderCheckboxes st'.
Proof.
  assert (Hsub' : withinCatalog st')
    by exact (run_invariant_when pageEvent withinCatalog
                dispatch_withinCatalog evs st st' Hpage Hrun Hsub).
  assert (Hnd' : NoDup (selectedOptions st'))
    by exact (run_invariant (fun s => NoDup (selectedOptions s))
                dispatch_NoDup evs st st' Hrun Hnd).
  split; [apply Hsub', Hsel|]. split.
  - change 5%nat with (length catalogIds).
    apply submseteq_length, NoDup_submseteq; assumption.
  - pose proof (Hsub' _ Hsel) as Hcat. unfold catalogIds in Hcat.
    apply list_elem_of_fmap in Hcat as (option & -> & Hopt).
    unfold renderCheckboxes. apply list_elem_of_fmap.
    exists option. split; [|exact Hopt].
    unfold renderCheckbox. f_equal.
    symmetry. apply bool_decide_eq_true. exact Hsel.
Qed.

Lemma selection_within_catalog_witness :
  let st' := mkState None false ["mobsf"; "drozer"] idle 0 false 0 in
  "drozer" ∈ catalogIds ∧
  (length (selectedOptions st') ≤ 5)%nat ∧
  mkCheckboxProps "drozer" true (bool_decide ("drozer" = "mobsf"))
    ∈ renderCheckboxes st'.
Proof.
  intros st'.
  apply (selection_within_catalog
           [ToggleOption "frida"; ToggleOption "drozer"; ToggleOption "frida"]
           initialState st' "drozer").
  - repeat constructor; simpl; unfold catalogIds; simpl;
      repeat (first [left | right]).
  - intros o Ho. apply list_elem_of_singleton in Ho as ->. left.
  - apply NoDup_singleton.
  - reflexivity.
  - right. left.
Defined.

(** ** The report heading *)

Lemma includes_cons (pat : string) (c : Ascii.ascii) (s : string) :
  includes pat (String c s) = false →
  stripPrefix pat (String c s) = None ∧ includes pat s = false.
Proof.
  simpl includes. destruct (stripPrefix pat (String c s)); [discriminate|].
  auto.
Qed.

Lemma replace_absent (pat rep s : string) :
  includes pat s = false → replace pat rep s = s.
Proof.
  induction s as [|c s IH]; intros Hinc.
  - simpl in *. destruct (stripPrefix pat ""); [discriminate | reflexivity].
  - apply includes_cons in Hinc as [Hstrip Hrest].
    simpl replace. rewrite Hstrip. f_equal. auto.
Qed.

(** An occurrence of [".apk"] cannot start in [a] and run into a
    following [".apk"]: the dot only matches the first character. *)
Lemma append_cons (c : Ascii.ascii) (s t : string) :
  String c s ++ t = String c (s ++ t).
Proof. reflexivity. Qed.

Lemma append_nil_l (t : string) : "" ++ t = t.
Proof. reflexivity. Qed.

(** An occurrence of [".apk"] cannot start in [a] and run into a
    following [".apk"]: the dot only matches the first character. *)
Lemma stripPrefix_apk_straddle (c : Ascii.ascii) (a rest : string) :
  stripPrefix ".apk" (String c a) = None →
  stripPrefix ".apk" (String c a ++ ".apk" ++ rest) = None.
Proof.
  rewrite append_cons. cbn [stripPrefix].
  destruct (Ascii.eqb _ c); [|reflexivity].
  destruct a as [|c1 a];
    rewrite ?append_nil_l, ?append_cons; cbn [stripPrefix]; [reflexivity|].
  destruct (Ascii.eqb _ c1); [|reflexivity].
  destruct a as [|c2 a];
    rewrite ?append_nil_l, ?append_cons; cbn [stripPrefix]; [reflexivity|].
  destruct (Ascii.eqb _ c2); [|reflexivity].
  destruct a as [|c3 a];
    rewrite ?append_nil_l, ?append_cons; cbn [stripPrefix]; [reflexivity|].
  destruct (Ascii.eqb _ c3); [discriminate | reflexivity].
Qed.

Lemma replace_first_apk (a b : string) :
  includes ".apk" a = false →
  replace ".apk" "" (a ++ ".apk" ++ b) = a ++ b.
Proof.
  induction a as [|c a IH]; intros Hinc; [reflexivity|].
  apply includes_cons in Hinc as [Hstrip Hrest].
  pose proof (stripPrefix_apk_straddle c a b Hstrip) as Hnone.
  rewrite !append_cons in *. cbn [replace]. rewrite Hnone.
  f_equal. auto.
Qed.

Lemma string_app_nil_r (s : string) : s ++ "" = s.
Proof.
  induction s as [|c s IH]; [reflexivity|].
  rewrite append_cons. f_equal. exact IH.
Qed.

Lemma string_app_assoc (s t u : string) : (s ++ t) ++ u = s ++ t ++ u.
Proof.
  induction s as [|c s IH]; [reflexivity|].
  rewrite !append_cons. f_equal. exact IH.
Qed.

(** X15: the heading of the report.  Let [a] be a string without
    [".apk"].  For a file named [a] the heading is [a] followed by
    [".apk"]; for a file named [a.apk] it is the file name itself; and
    for a file named [a.apk] followed by anything [b], only that first
    [".apk"] is moved to the end: the heading is [a], [b], [".apk"].  It
    always ends in [".apk"], and without a file it is the placeholder
    text. *)
Theorem reportTitle_spec (st : State) (f : File) (a b : string)
    (Hfile : file st = Some f)
    (Hfirst : includes ".apk" a = false) :
  (file_name f = a → reportTitle st = a ++ ".apk") ∧
  (file_name f = a ++ ".apk" → reportTitle st = file_name f) ∧
  (file_name f = a ++ ".apk" ++ b → reportTitle st = a ++ b ++ ".apk") ∧
  (∃ base, reportTitle st = base ++ ".apk") ∧
  reportTitle (mkState None (dialogOpen st) (selectedOptions st) (step st)
                       (progress st) (timer st) (pendingSummary st)) =
    "Your APK".
Proof.
  unfold reportTitle at 1 2 3 4. rewrite Hfile.
  split; [|split; [|split; [|split]]].
  - intros ->. rewrite replace_absent by assumption. reflexivity.
  - intros ->. rewrite <- (string_app_nil_r (a ++ ".apk")) at 1.
    rewrite string_app_assoc.
    rewrite (replace_first_apk a "") by assumption.
    rewrite string_app_nil_r. reflexivity.
  - intros ->. rewrite replace_first_apk by assumption.
    rewrite string_app_assoc. reflexivity.
  - eexists. reflexivity.
  - reflexivity.
Qed.

Lemma reportTitle_spec_witness :
  let f := mkFile "my.apk.backup.apk" 9 in
  let st := mkState (Some f) false ["mobsf"] summary 100 false 0 in
  (file_name f = "my" → reportTitle st = "my" ++ ".apk") ∧
  (file_name f = "my" ++ ".apk" → reportTitle st = file_name f) ∧
  (file_name f = "my" ++ ".apk" ++ ".backup.apk" →
   reportTitle st = "my" ++ ".backup.apk" ++ ".apk") ∧
  (∃ base, reportTitle st = base ++ ".apk") ∧
  reportTitle (mkState None (dialogOpen st) (selectedOptions st) (step st)
                       (progress st) (timer st) (pendingSummary st)) =
    "Your APK".
Proof.
  intros f st. apply (reportTitle_spec st f "my" ".backup.apk"); reflexivity.
Defined.

Example reportTitle_examples :
  reportTitle (setFile apk initialState) = "app.apk" ∧
  reportTitle (setFile (mkFile "notes.txt" 1) initialState) = "notes.txt.apk" ∧
  reportTitle (setFile (mkFile "my.apk.backup.apk" 1) initialState) =
    "my.backup.apk.apk" ∧
  reportTitle initialState = "Your APK".
Proof. repeat split. Qed.

(** ** The percentage in the overlay *)

Lemma displayedPercent_bounds (st : State) :
  inRange (progress st) → (0 ≤ displayedPercent st ≤ 100)%Z.
Proof.
  unfold inRange, displayedPercent. intros [H0 H100]. split.
  - change 0%Z with (Qfloor 0). apply Qfloor_resp_le. lra.
  - change 100%Z with (Qfloor (201 # 2)). apply Qfloor_resp_le. lra.
Qed.

(** X16: the percentage written in the overlay.  In every state
    reached from the initial one (with draws in the unit interval) the
    rounded percentage is an integer between 0 and 100; it is within
    one half of [progress]; it reads 100 exactly when [progress] is at
    least 99.5; and whenever a tick is served it does not lower the
    percentage. *)
Theorem displayedPercent_spec (evs : list Event) (st : State)
    (Hevs : Forall eventOk evs)
    (Hrun : run evs initialState = Some st) :
  (0 ≤ displayedPercent st ≤ 100)%Z ∧
  (progress st - (1 # 2) < inject_Z (displayedPercent st))%Q ∧
  (inject_Z (displayedPercent st) <= progress st + (1 # 2))%Q ∧
  (displayedPercent st = 100%Z ↔ (199 # 2 <= progress st)%Q) ∧
  (∀ random st',
     randomOk random → dispatch (IntervalTick random) st = Some st' →
     (displayedPercent st ≤ displayedPercent st')%Z).
Proof.
  pose proof (run_invariant_ok
                (fun s => timerInv s ∧ isDouble (progress s))
                dispatch_doubleInv evs initialState st Hevs Hrun
                (conj timerInv_initial isDouble_0)) as [[Hp Ht] Hd].
  pose proof (displayedPercent_bounds st Hp) as Hb.
  split; [exact Hb|].
  pose proof (Qfloor_le (progress st + (1 # 2))) as Hfl.
  pose proof (Qlt_floor (progress st + (1 # 2))) as Hlt.
  fold (displayedPercent st) in Hfl, Hlt.
  rewrite inject_Z_plus in Hlt.
  split; [|split; [exact Hfl|split]].
  - change (inject_Z 1) with 1%Q in Hlt. lra.
  - split.
    + intros H100. rewrite H100 in Hfl.
      change (inject_Z 100) with 100%Q in Hfl. lra.
    + intros Hge. apply Z.le_antisymm; [apply Hb|].
      unfold displayedPercent. change 100%Z with (Qfloor 100).
      apply Qfloor_resp_le. lra.
  - intros random st' Hrandom Htick. simpl in Htick.
    destruct (timer st); [|discriminate].
    injection Htick as <-. unfold displayedPercent.
    apply Qfloor_resp_le. rewrite tick_progress.
    pose proof (nextProgress_ge _ _ Hp Hd Hrandom) as Hle. lra.
Qed.

Lemma displayedPercent_spec_witness :
  let st := mkState (Some apk) false ["mobsf"] processing 100 false 1 in
  (0 ≤ displayedPercent st ≤ 100)%Z ∧
  (progress st - (1 # 2) < inject_Z (displayedPercent st))%Q ∧
  (inject_Z (displayedPercent st) <= progress st + (1 # 2))%Q ∧
  (displayedPercent st = 100%Z ↔ (199 # 2 <= progress st)%Q) ∧
  (∀ random st',
     randomOk random → dispatch (IntervalTick random) st = Some st' →
     (displayedPercent st ≤ displayedPercent st')%Z).
Proof.
  intros st. apply (displayedPercent_spec completedRun st).
  - repeat constructor; apply randomOk_high.
  - vm_compute. reflexivity.
Defined.

Example displayedPercent_examples :
  displayedPercent (setProgress (199 # 2) initialState) = 100%Z ∧
  displayedPercent (setProgress (994 # 10) initialState) = 99%Z ∧
  displayedPercent (setProgress (1 # 2) initialState) = 1%Z ∧
  displayedPercent (setProgress (49 # 100) initialState) = 0%Z.
Proof. repeat split. Qed.
